(** * forum: the query cache and the token-bucket rate limiter

    A shallow embedding of
      - [server/queries/cached_queries.go]  (QueryCache, CachedPostQueryService)
      - [server/middleware]                 (RateLimiter, RateLimit)
    Go maps are finite maps ([gmap string _]); Go's [int] and
    [time.Duration] are 64-bit two's-complement integers, carried as [Z]
    with the wrap-around written out; a run-time panic is an explicit
    outcome that keeps the state reached when the panic was raised (the
    deferred [Unlock] runs, the Recovery middleware resumes serving).
    The mutexes serialise whole operations, so every operation is one atomic
    state transformer here. *)

From Stdlib Require Import ZArith String Ascii Lia.
From stdpp Require Import gmap strings list fin_maps pretty.

Local Open Scope string_scope.
Local Open Scope list_scope.
Local Open Scope Z_scope.

(** ** The parts of the Go runtime and standard library the code relies on *)

Module Go.

(** [int] and [int64]: 64 bits, two's complement. *)
Definition min_int : Z := - 2 ^ 63.
Definition max_int : Z := 2 ^ 63 - 1.

Definition wrap64 (z : Z) : Z := (z + 2 ^ 63) mod 2 ^ 64 - 2 ^ 63.

Definition int_add (a b : Z) : Z := wrap64 (a + b).
Definition int_sub (a b : Z) : Z := wrap64 (a - b).

(** Integer division truncates toward zero; [None] is the run-time panic
    "integer divide by zero".  [min_int / -1] wraps to [min_int]. *)
Definition int_div (a b : Z) : option Z :=
  if decide (b = 0) then None else Some (wrap64 (Z.quot a b)).

(** [time.Time] as an instant in nanoseconds on the monotonic clock that
    [time.Now] reads, [time.Duration] as an [int64] count of nanoseconds. *)
Definition Time : Type := Z.
Definition Duration : Type := Z.

Definition Nanosecond : Duration := 1.
Definition Second : Duration := 1000000000.
Definition Minute : Duration := 60 * Second.
Definition Hour : Duration := 60 * Minute.

(** [t.After(u)]: strictly later. *)
Definition After (t u : Time) : bool := bool_decide (u < t).

(** [t.Add(d)]. *)
Definition Add (t : Time) (d : Duration) : Time := t + d.

(** [t.Sub(u)]: the difference, saturated to the range of [Duration]. *)
Definition Sub (t u : Time) : Duration :=
  if decide (t - u < min_int) then min_int
  else if decide (max_int < t - u) then max_int
  else t - u.

(** [fmt.Sprintf("%d", n)]: decimal digits, a leading "-" when negative. *)
Definition Sprintf_d (n : Z) : string := pretty n.

(** [len(s)] counts bytes; a Rocq [string] is a list of 8-bit characters. *)
Definition len (s : string) : nat := String.length s.

(** The slice expression [s[:hi]]: [None] is the run-time panic
    "slice bounds out of range", raised when [hi > len(s)]. *)
Definition slice_to (s : string) (hi : nat) : option string :=
  if decide (hi ≤ len s)%nat then Some (substring 0 hi s) else None.

(** [strings.HasPrefix], used to state what a prefix match is. *)
Definition HasPrefix (s p : string) : bool := String.prefix p s.

(** The outcome of a call: it returns a result and leaves a state, or it
    panics and leaves the state reached so far. *)
Inductive outcome (R S : Type) : Type :=
| Returned (r : R) (s : S)
| Panicked (s : S).
Arguments Returned {R S} r s.
Arguments Panicked {R S} s.

Definition state_of {R S} (o : outcome R S) : S :=
  match o with Returned _ s => s | Panicked s => s end.

Definition returns {R S} (o : outcome R S) : bool :=
  match o with Returned _ _ => true | Panicked _ => false end.

End Go.
Import Go.

(** ** server/queries/models.go *)

Record PostListItem := {
  pli_ID : Z;
  pli_Title : string;
  pli_ContentPreview : string;
  pli_AuthorID : Z;
  pli_AuthorUsername : string;
  pli_CreatedAt : Time;
  pli_CommentCount : Z;
  pli_LikeCount : Z;
  pli_DislikeCount : Z;
  pli_Categories : list string;
  pli_UserHasLiked : bool;
  pli_UserHasDisliked : bool
}.

Record CommentDetail := {
  cd_ID : Z;
  cd_PostID : Z;
  cd_Content : string;
  cd_AuthorID : Z;
  cd_AuthorUsername : string;
  cd_CreatedAt : Time;
  cd_LikeCount : Z;
  cd_DislikeCount : Z;
  cd_UserHasLiked : bool;
  cd_UserHasDisliked : bool
}.

Record PostDetail := {
  pd_ID : Z;
  pd_Title : string;
  pd_Content : string;
  pd_AuthorID : Z;
  pd_AuthorUsername : string;
  pd_CreatedAt : Time;
  pd_Categories : list string;
  pd_LikeCount : Z;
  pd_DislikeCount : Z;
  pd_UserHasLiked : bool;
  pd_UserHasDisliked : bool;
  pd_Comments : list CommentDetail
}.

Record CategorySummary := {
  cs_ID : Z;
  cs_Label : string;
  cs_PostCount : Z
}.

(** [interface{}]: the nil interface, or a value tagged with its dynamic
    type.  These are the three types the service stores. *)
Inductive any : Type :=
| nil_any
| PostListItems (v : list PostListItem)
| PostDetailPtr (v : option PostDetail)
| CategorySummaries (v : list CategorySummary).

(** Go's [error]: [None] is nil. *)
Definition error : Type := option string.

(** ** QueryCache (cached_queries.go, lines 16-97) *)

Record cacheItem := {
  data : any;
  expiresAt : Time
}.

Record QueryCache := {
  items : gmap string cacheItem;
  ttl : Duration
}.

Definition with_items (c : QueryCache) (m : gmap string cacheItem) : QueryCache :=
  {| items := m; ttl := ttl c |}.

(** [NewQueryCache]; the cleanup goroutine it starts is [cleanup] below. *)
Definition NewQueryCache (ttl : Duration) : QueryCache :=
  {| items := ∅; ttl := ttl |}.

(** [Get]; [now] is the reading of [time.Now()]. *)
Definition Get (c : QueryCache) (now : Time) (key : string) : any * bool :=
  match items c !! key with
  | None => (nil_any, false)
  | Some item =>
      if After now (expiresAt item) then (nil_any, false)
      else (data item, true)
  end.

(** [Set]. *)
Definition Set_ (c : QueryCache) (now : Time) (key : string) (data : any) : QueryCache :=
  with_items c (<[key := {| data := data; expiresAt := Add now (ttl c) |}]> (items c)).

(** The condition of the [if] in [Invalidate]:
    [len(keyPrefix) == 0 || key[:len(keyPrefix)] == keyPrefix];
    [None] when the slice expression panics. *)
Definition Invalidate_cond (keyPrefix key : string) : option bool :=
  if (len keyPrefix =? 0)%nat then Some true
  else match slice_to key (len keyPrefix) with
       | None => None
       | Some s => Some (String.eqb s keyPrefix)
       end.

(** The body of [for key := range c.items] over the keys still to visit.
    Only the key being visited is ever deleted, so the loop visits every key
    of the map it started with once, in the order the runtime picks. *)
Fixpoint Invalidate_loop (keyPrefix : string) (keys : list string)
    (m : gmap string cacheItem) : outcome unit (gmap string cacheItem) :=
  match keys with
  | [] => Returned tt m
  | key :: rest =>
      match Invalidate_cond keyPrefix key with
      | None => Panicked m
      | Some true => Invalidate_loop keyPrefix rest (delete key m)
      | Some false => Invalidate_loop keyPrefix rest m
      end
  end.

(** One sweep of the loop in [cleanup], run at the tick read as [now].
    [item] is the value [range] yields with [key]: a key still to visit is
    still in the map, since only visited keys are deleted. *)
Fixpoint cleanup_loop (now : Time) (keys : list string)
    (m : gmap string cacheItem) : gmap string cacheItem :=
  match keys with
  | [] => m
  | key :: rest =>
      match m !! key with
      | Some item =>
          if After now (expiresAt item) then cleanup_loop now rest (delete key m)
          else cleanup_loop now rest m
      | None => cleanup_loop now rest m
      end
  end.

(** The keys of a map in the canonical order of [map_to_list]. *)
Definition map_keys {V} (m : gmap string V) : list string := (map_to_list m).*1.

Section MapRange.

(** Go leaves the iteration order of [range] over a map unspecified.
    [range m] is the order in which the runtime enumerates the keys of
    [m]; all that is known is that it enumerates each key once, which the
    theorems below assume as [range m ≡ₚ map_keys m]. *)
Variable range : gmap string cacheItem → list string.

(** [Invalidate]. *)
Definition Invalidate (c : QueryCache) (keyPrefix : string) : outcome unit QueryCache :=
  match Invalidate_loop keyPrefix (range (items c)) (items c) with
  | Returned r m => Returned r (with_items c m)
  | Panicked m => Panicked (with_items c m)
  end.

(** One pass of [cleanup], at the tick read as [now]. *)
Definition cleanup_pass (c : QueryCache) (now : Time) : QueryCache :=
  with_items c (cleanup_loop now (range (items c)) (items c)).

(** [cleanup]: [for range ticker.C] never ends; this is the state after
    the ticks that have fired so far, oldest first. *)
Definition cleanup (c : QueryCache) (ticks : list Time) : QueryCache :=
  foldl cleanup_pass c ticks.

End MapRange.

(** The order of [map_to_list], one admissible choice of [range]. *)
Definition canonical_range {V} (m : gmap string V) : list string := map_keys m.

(** ** PostQueryService (post_queries.go)

    The uncached read side runs SQL against the database.  The cache never
    looks inside: a query is what the database answers at present, plus a
    log of the calls made, which is what counts invocations. *)

Inductive QueryCall : Type :=
| Q_GetAllPosts (userID : Z)
| Q_GetPostByID (postID userID : Z)
| Q_GetPostsByCategory (categoryID userID : Z)
| Q_GetUserCreatedPosts (userID : Z)
| Q_GetUserLikedPosts (userID : Z)
| Q_GetAllCategories.

Record Database := {
  db_GetAllPosts : Z → list PostListItem * error;
  db_GetPostByID : Z → Z → option PostDetail * error;
  db_GetPostsByCategory : Z → Z → list PostListItem * error;
  db_GetUserCreatedPosts : Z → list PostListItem * error;
  db_GetUserLikedPosts : Z → list PostListItem * error;
  db_GetAllCategories : list CategorySummary * error
}.

Module PostQueryService.

Record t := {
  db : Database;
  calls : list QueryCall
}.

Definition call (s : t) (q : QueryCall) : t :=
  {| db := db s; calls := calls s ++ [q] |}.

(** The database as changed by the write side between two reads. *)
Definition with_db (s : t) (d : Database) : t :=
  {| db := d; calls := calls s |}.

Definition GetAllPosts (s : t) (userID : Z) : (list PostListItem * error) * t :=
  (db_GetAllPosts (db s) userID, call s (Q_GetAllPosts userID)).

Definition GetPostByID (s : t) (postID userID : Z) : (option PostDetail * error) * t :=
  (db_GetPostByID (db s) postID userID, call s (Q_GetPostByID postID userID)).

Definition GetPostsByCategory (s : t) (categoryID userID : Z)
  : (list PostListItem * error) * t :=
  (db_GetPostsByCategory (db s) categoryID userID,
   call s (Q_GetPostsByCategory categoryID userID)).

Definition GetUserCreatedPosts (s : t) (userID : Z) : (list PostListItem * error) * t :=
  (db_GetUserCreatedPosts (db s) userID, call s (Q_GetUserCreatedPosts userID)).

Definition GetUserLikedPosts (s : t) (userID : Z) : (list PostListItem * error) * t :=
  (db_GetUserLikedPosts (db s) userID, call s (Q_GetUserLikedPosts userID)).

Definition GetAllCategories (s : t) : (list CategorySummary * error) * t :=
  (db_GetAllCategories (db s), call s Q_GetAllCategories).

End PostQueryService.

(** ** CachedPostQueryService (cached_queries.go, lines 10-14 and 99-238)

    Every read method takes the two clock readings it may make: [t_get] in
    [cache.Get] and [t_set] in [cache.Set].  A type assertion on a cached
    value of another dynamic type panics. *)

Module CachedPostQueryService.

Record t := {
  queryService : PostQueryService.t;
  cache : QueryCache
}.

Definition NewCachedPostQueryService (d : Database) (cacheTTL : Duration) : t :=
  {| queryService := {| PostQueryService.db := d; PostQueryService.calls := [] |};
     cache := NewQueryCache cacheTTL |}.

Definition with_queryService (s : t) (q : PostQueryService.t) : t :=
  {| queryService := q; cache := cache s |}.

Definition with_cache (s : t) (c : QueryCache) : t :=
  {| queryService := queryService s; cache := c |}.

Definition GetAllPosts (s : t) (t_get t_set : Time) (userID : Z)
  : outcome (list PostListItem * error) t :=
  let cacheKey := "posts_all_user_" +:+ Sprintf_d userID in
  match Get (cache s) t_get cacheKey with
  | (cached, true) =>
      match cached with
      | PostListItems v => Returned (v, None) s
      | _ => Panicked s
      end
  | (_, false) =>
      let '((posts, err), q) := PostQueryService.GetAllPosts (queryService s) userID in
      match err with
      | Some _ => Returned ([], err) (with_queryService s q)
      | None =>
          Returned (posts, None)
            {| queryService := q;
               cache := Set_ (cache s) t_set cacheKey (PostListItems posts) |}
      end
  end.

Definition GetPostByID (s : t) (t_get t_set : Time) (postID userID : Z)
  : outcome (option PostDetail * error) t :=
  let cacheKey := "post_" +:+ Sprintf_d postID +:+ "_user_" +:+ Sprintf_d userID in
  match Get (cache s) t_get cacheKey with
  | (cached, true) =>
      match cached with
      | PostDetailPtr v => Returned (v, None) s
      | _ => Panicked s
      end
  | (_, false) =>
      let '((post, err), q) :=
        PostQueryService.GetPostByID (queryService s) postID userID in
      match err with
      | Some _ => Returned (None, err) (with_queryService s q)
      | None =>
          Returned (post, None)
            {| queryService := q;
               cache := Set_ (cache s) t_set cacheKey (PostDetailPtr post) |}
      end
  end.

Definition GetPostsByCategory (s : t) (t_get t_set : Time) (categoryID userID : Z)
  : outcome (list PostListItem * error) t :=
  let cacheKey :=
    "posts_cat_" +:+ Sprintf_d categoryID +:+ "_user_" +:+ Sprintf_d userID in
  match Get (cache s) t_get cacheKey with
  | (cached, true) =>
      match cached with
      | PostListItems v => Returned (v, None) s
      | _ => Panicked s
      end
  | (_, false) =>
      let '((posts, err), q) :=
        PostQueryService.GetPostsByCategory (queryService s) categoryID userID in
      match err with
      | Some _ => Returned ([], err) (with_queryService s q)
      | None =>
          Returned (posts, None)
            {| queryService := q;
               cache := Set_ (cache s) t_set cacheKey (PostListItems posts) |}
      end
  end.

Definition GetUserCreatedPosts (s : t) (t_get t_set : Time) (userID : Z)
  : outcome (list PostListItem * error) t :=
  let cacheKey := "posts_created_user_" +:+ Sprintf_d userID in
  match Get (cache s) t_get cacheKey with
  | (cached, true) =>
      match cached with
      | PostListItems v => Returned (v, None) s
      | _ => Panicked s
      end
  | (_, false) =>
      let '((posts, err), q) :=
        PostQueryService.GetUserCreatedPosts (queryService s) userID in
      match err with
      | Some _ => Returned ([], err) (with_queryService s q)
      | None =>
          Returned (posts, None)
            {| queryService := q;
               cache := Set_ (cache s) t_set cacheKey (PostListItems posts) |}
      end
  end.

Definition GetUserLikedPosts (s : t) (t_get t_set : Time) (userID : Z)
  : outcome (list PostListItem * error) t :=
  let cacheKey := "posts_liked_user_" +:+ Sprintf_d userID in
  match Get (cache s) t_get cacheKey with
  | (cached, true) =>
      match cached with
      | PostListItems v => Returned (v, None) s
      | _ => Panicked s
      end
  | (_, false) =>
      let '((posts, err), q) :=
        PostQueryService.GetUserLikedPosts (queryService s) userID in
      match err with
      | Some _ => Returned ([], err) (with_queryService s q)
      | None =>
          Returned (posts, None)
            {| queryService := q;
               cache := Set_ (cache s) t_set cacheKey (PostListItems posts) |}
      end
  end.

Definition GetAllCategories (s : t) (t_get t_set : Time)
  : outcome (list CategorySummary * error) t :=
  let cacheKey := "categories_all" in
  match Get (cache s) t_get cacheKey with
  | (cached, true) =>
      match cached with
      | CategorySummaries v => Returned (v, None) s
      | _ => Panicked s
      end
  | (_, false) =>
      let '((categories, err), q) :=
        PostQueryService.GetAllCategories (queryService s) in
      match err with
      | Some _ => Returned ([], err) (with_queryService s q)
      | None =>
          Returned (categories, None)
            {| queryService := q;
               cache := Set_ (cache s) t_set cacheKey (CategorySummaries categories) |}
      end
  end.

Section MapRange.

Variable range : gmap string cacheItem → list string.

(** Sequencing of cache invalidations: a panic skips what follows. *)
Definition and_then (o : outcome unit QueryCache)
    (k : QueryCache → outcome unit QueryCache) : outcome unit QueryCache :=
  match o with
  | Returned _ c => k c
  | Panicked c => Panicked c
  end.

Definition lift (s : t) (o : outcome unit QueryCache) : outcome unit t :=
  match o with
  | Returned r c => Returned r (with_cache s c)
  | Panicked c => Panicked (with_cache s c)
  end.

Definition InvalidatePostCache (s : t) : outcome unit t :=
  lift s
    (and_then (Invalidate range (cache s) "posts_") (λ c,
     Invalidate range c "post_")).

Definition InvalidateUserCache (s : t) (userID : Z) : outcome unit t :=
  lift s
    (and_then (Invalidate range (cache s) ("user_" +:+ Sprintf_d userID)) (λ c,
     and_then (Invalidate range c ("posts_created_user_" +:+ Sprintf_d userID)) (λ c,
     Invalidate range c ("posts_liked_user_" +:+ Sprintf_d userID)))).

End MapRange.

End CachedPostQueryService.

(** ** RateLimiter (middleware) *)

Module RateLimiter.

Record visitor := {
  tokens : Z;
  lastRefill : Time
}.

Record t := {
  visitors : gmap string visitor
}.

(** [NewRateLimiter]; the goroutine it starts is [cleanupLoop] below. *)
Definition NewRateLimiter : t := {| visitors := ∅ |}.

Definition min (a b : Z) : Z := if decide (a < b) then a else b.

(** [rl.visitors] holds pointers: assigning to [v.tokens] and
    [v.lastRefill] updates the record the map refers to. *)
Definition store (rl : t) (key : string) (v : visitor) : t :=
  {| visitors := <[key := v]> (visitors rl) |}.

(** The refill step of [Allow] applied to an existing visitor. *)
Definition refill (v : visitor) (now : Time) (maxTokens tokensToAdd : Z) : visitor :=
  if decide (0 < tokensToAdd)
  then {| tokens := min (int_add (tokens v) tokensToAdd) maxTokens;
          lastRefill := now |}
  else v.

(** [tokensToAdd := int(elapsed / refillRate)] with
    [elapsed := now.Sub(v.lastRefill)]; the division panics when
    [refillRate] is zero. *)
Definition tokensToAdd (v : visitor) (now : Time) (refillRate : Duration) : option Z :=
  let elapsed := Sub now (lastRefill v) in
  int_div elapsed refillRate.

(** [Allow]; [now] is the reading of the one [time.Now()] the call makes. *)
Definition Allow (rl : t) (now : Time) (key : string) (maxTokens : Z)
    (refillRate : Duration) : outcome bool t :=
  match visitors rl !! key with
  | None =>
      Returned true
        (store rl key {| tokens := int_sub maxTokens 1; lastRefill := now |})
  | Some v =>
      match tokensToAdd v now refillRate with
      | None => Panicked rl
      | Some tokensToAdd =>
          let v' := refill v now maxTokens tokensToAdd in
          if decide (0 < tokens v')
          then Returned true
                 (store rl key {| tokens := int_sub (tokens v') 1;
                                  lastRefill := lastRefill v' |})
          else Returned false (store rl key v')
      end
  end.

(** One sweep of the loop in [cleanupLoop]: visitors whose last refill is
    more than an hour old are dropped. *)
Fixpoint cleanupLoop_loop (now : Time) (keys : list string)
    (m : gmap string visitor) : gmap string visitor :=
  match keys with
  | [] => m
  | key :: rest =>
      match m !! key with
      | Some v =>
          if decide (1 * Hour < Sub now (lastRefill v))
          then cleanupLoop_loop now rest (delete key m)
          else cleanupLoop_loop now rest m
      | None => cleanupLoop_loop now rest m
      end
  end.

(** The limiter as the [RateLimit] wrapper uses it for one request whose
    client address is [key]: [true] when the request is passed on to
    [next], [false] when it is answered 429. *)
Definition RateLimit (limiter : t) (maxRequests : Z) (window : Duration)
    (now : Time) (key : string) : outcome bool t :=
  match int_div window maxRequests with
  | None => Panicked limiter
  | Some refillRate => Allow limiter now key maxRequests refillRate
  end.

Section MapRange.

Variable range : gmap string visitor → list string.

Definition cleanupLoop_pass (rl : t) (now : Time) : t :=
  {| visitors := cleanupLoop_loop now (range (visitors rl)) (visitors rl) |}.

(** What happens to a limiter: a call of [Allow], or a sweep. *)
Inductive event : Type :=
| EvAllow (now : Time) (key : string) (maxTokens : Z) (refillRate : Duration)
| EvSweep (now : Time).

Definition step (rl : t) (e : event) : t :=
  match e with
  | EvAllow now key maxTokens refillRate =>
      state_of (Allow rl now key maxTokens refillRate)
  | EvSweep now => cleanupLoop_pass rl now
  end.

Definition run (rl : t) (es : list event) : t := foldl step rl es.

End MapRange.




(** The answers of consecutive calls of [Allow] for one key under one
    policy, made at the given clock readings; [None] is a panic. *)
Fixpoint Allow_seq (rl : t) (key : string) (maxTokens : Z)
    (refillRate : Duration) (times : list Time) : list (option bool) :=
  match times with
  | [] => []
  | now :: rest =>
      match Allow rl now key maxTokens refillRate with
      | Returned b rl' => Some b :: Allow_seq rl' key maxTokens refillRate rest
      | Panicked rl' => None :: Allow_seq rl' key maxTokens refillRate rest
      end
  end.

End RateLimiter.

(** ** The six read methods as one scheme, and runs of the service *)

Module Service.

Import CachedPostQueryService.

(** The key each read method builds with [fmt.Sprintf]. *)
Definition cacheKey (q : QueryCall) : string :=
  match q with
  | Q_GetAllPosts userID => "posts_all_user_" +:+ Sprintf_d userID
  | Q_GetPostByID postID userID =>
      "post_" +:+ Sprintf_d postID +:+ "_user_" +:+ Sprintf_d userID
  | Q_GetPostsByCategory categoryID userID =>
      "posts_cat_" +:+ Sprintf_d categoryID +:+ "_user_" +:+ Sprintf_d userID
  | Q_GetUserCreatedPosts userID => "posts_created_user_" +:+ Sprintf_d userID
  | Q_GetUserLikedPosts userID => "posts_liked_user_" +:+ Sprintf_d userID
  | Q_GetAllCategories => "categories_all"
  end.

(** The type assertion each read method makes on a cached value:
    to a slice of [PostListItem], to a pointer to [PostDetail], or to a
    slice of [CategorySummary]. *)
Definition assertion (q : QueryCall) (cached : any) : bool :=
  match q, cached with
  | Q_GetAllPosts _, PostListItems _ => true
  | Q_GetPostByID _ _, PostDetailPtr _ => true
  | Q_GetPostsByCategory _ _, PostListItems _ => true
  | Q_GetUserCreatedPosts _, PostListItems _ => true
  | Q_GetUserLikedPosts _, PostListItems _ => true
  | Q_GetAllCategories, CategorySummaries _ => true
  | _, _ => false
  end.

(** The [nil] each read method returns beside an error. *)
Definition zero (q : QueryCall) : any :=
  match q with
  | Q_GetPostByID _ _ => PostDetailPtr None
  | Q_GetAllCategories => CategorySummaries []
  | _ => PostListItems []
  end.

(** What the database answers to a query, as an [interface{}] value. *)
Definition answer (q : QueryCall) (d : Database) : any * error :=
  match q with
  | Q_GetAllPosts userID =>
      let '(v, e) := db_GetAllPosts d userID in (PostListItems v, e)
  | Q_GetPostByID postID userID =>
      let '(v, e) := db_GetPostByID d postID userID in (PostDetailPtr v, e)
  | Q_GetPostsByCategory categoryID userID =>
      let '(v, e) := db_GetPostsByCategory d categoryID userID in (PostListItems v, e)
  | Q_GetUserCreatedPosts userID =>
      let '(v, e) := db_GetUserCreatedPosts d userID in (PostListItems v, e)
  | Q_GetUserLikedPosts userID =>
      let '(v, e) := db_GetUserLikedPosts d userID in (PostListItems v, e)
  | Q_GetAllCategories =>
      let '(v, e) := db_GetAllCategories d in (CategorySummaries v, e)
  end.

Definition box {A} (inj : A → any) (o : outcome (A * error) t)
  : outcome (any * error) t :=
  match o with
  | Returned (a, e) s => Returned (inj a, e) s
  | Panicked s => Panicked s
  end.

(** A call of the read method that serves the query [q]. *)
Definition read (q : QueryCall) (s : t) (t_get t_set : Time)
  : outcome (any * error) t :=
  match q with
  | Q_GetAllPosts userID => box PostListItems (GetAllPosts s t_get t_set userID)
  | Q_GetPostByID postID userID =>
      box PostDetailPtr (GetPostByID s t_get t_set postID userID)
  | Q_GetPostsByCategory categoryID userID =>
      box PostListItems (GetPostsByCategory s t_get t_set categoryID userID)
  | Q_GetUserCreatedPosts userID =>
      box PostListItems (GetUserCreatedPosts s t_get t_set userID)
  | Q_GetUserLikedPosts userID =>
      box PostListItems (GetUserLikedPosts s t_get t_set userID)
  | Q_GetAllCategories => box CategorySummaries (GetAllCategories s t_get t_set)
  end.

(** The cache-aside scheme the six methods are written to: look [key] up,
    on a hit assert the type and return the cached value, on a miss run
    [computeFn], hand an error back with [nil], store a success under [key]
    and return it. *)
Definition getOrCompute (s : t) (t_get t_set : Time) (key : string)
    (asserted : any → bool) (nil_value : any)
    (computeFn : PostQueryService.t → (any * error) * PostQueryService.t)
  : outcome (any * error) t :=
  match Get (cache s) t_get key with
  | (cached, true) =>
      if asserted cached then Returned (cached, None) s else Panicked s
  | (_, false) =>
      let '((value, err), q) := computeFn (queryService s) in
      match err with
      | Some _ => Returned (nil_value, err) (with_queryService s q)
      | None =>
          Returned (value, None)
            {| queryService := q; cache := Set_ (cache s) t_set key value |}
      end
  end.

(** The scheme run for the query [q]. *)
Definition scheme (q : QueryCall) (s : t) (t_get t_set : Time)
  : outcome (any * error) t :=
  getOrCompute s t_get t_set (cacheKey q) (assertion q) (zero q)
    (λ qs, (answer q (PostQueryService.db qs), PostQueryService.call qs q)).

(** What a client of the service does: a read, one of the two
    invalidations, a tick of the cache's cleanup goroutine, or a write to
    the database behind the service's back. *)
Inductive op : Type :=
| OpRead (q : QueryCall) (t_get t_set : Time)
| OpInvalidatePostCache
| OpInvalidateUserCache (userID : Z)
| OpCleanup (tick : Time)
| OpWrite (d : Database).

Section MapRange.

Variable range : gmap string cacheItem → list string.

(** The state an operation leaves, also when it panics. *)
Definition step (s : t) (o : op) : t :=
  match o with
  | OpRead q t_get t_set => state_of (read q s t_get t_set)
  | OpInvalidatePostCache => state_of (InvalidatePostCache range s)
  | OpInvalidateUserCache userID => state_of (InvalidateUserCache range s userID)
  | OpCleanup tick => with_cache s (cleanup_pass range (cache s) tick)
  | OpWrite d => with_queryService s (PostQueryService.with_db (queryService s) d)
  end.

Definition run (s : t) (os : list op) : t := foldl step s os.

End MapRange.

(** Every entry is one a read method stored: its key is the key of a query
    and its value has the type that query's method asserts. *)
Definition stored_by_reads (c : QueryCache) : Prop :=
  ∀ key item, items c !! key = Some item →
              ∃ q, key = cacheKey q ∧ assertion q (data item) = true.

(** The characters [%d] prints. *)
Definition decimal_char (a : ascii) : bool :=
  match a with
  | "-" | "0" | "1" | "2" | "3" | "4" | "5" | "6" | "7" | "8" | "9" => true
  | _ => false
  end%char.

Fixpoint decimal (s : string) : bool :=
  match s with
  | EmptyString => true
  | String a rest => decimal_char a && decimal rest
  end.

End Service.

(** ** Example states, built by running the operations above *)

Module Examples.

Import CachedPostQueryService.

Definition example_post : PostListItem :=
  {| pli_ID := 1; pli_Title := "Hello"; pli_ContentPreview := "First post";
     pli_AuthorID := 7; pli_AuthorUsername := "alice"; pli_CreatedAt := 0;
     pli_CommentCount := 0; pli_LikeCount := 0; pli_DislikeCount := 0;
     pli_Categories := ["general"]; pli_UserHasLiked := false;
     pli_UserHasDisliked := false |}.

(** A database that answers every list query with one post. *)
Definition db_up : Database :=
  {| db_GetAllPosts := λ _, ([example_post], None);
     db_GetPostByID := λ _ _, (None, None);
     db_GetPostsByCategory := λ _ _, ([example_post], None);
     db_GetUserCreatedPosts := λ _, ([example_post], None);
     db_GetUserLikedPosts := λ _, ([example_post], None);
     db_GetAllCategories := ([], None) |}.

(** A database whose queries all fail. *)
Definition db_down : Database :=
  {| db_GetAllPosts := λ _, ([], Some "failed to query posts");
     db_GetPostByID := λ _ _, (None, Some "failed to query post");
     db_GetPostsByCategory := λ _ _, ([], Some "failed to query posts");
     db_GetUserCreatedPosts := λ _, ([], Some "failed to query posts");
     db_GetUserLikedPosts := λ _, ([], Some "failed to query posts");
     db_GetAllCategories := ([], Some "failed to query categories") |}.

(** The service as [routes] builds it, with a TTL of five minutes. *)
Definition cold : t := NewCachedPostQueryService db_up (5 * Minute).
Definition cold_down : t := NewCachedPostQueryService db_down (5 * Minute).

(** After [GetAllPosts(7)] at time 0. *)
Definition warm : t := state_of (GetAllPosts cold 0 0 7).

(** After [GetAllCategories()] and [GetUserCreatedPosts(5)]: the cache
    holds the keys "categories_all" and "posts_created_user_5". *)
Definition categories_and_user5 : t :=
  state_of (GetUserCreatedPosts (state_of (GetAllCategories cold 0 0)) 0 0 5).

(** After [GetUserLikedPosts(55)]. *)
Definition liked55 : t := state_of (GetUserLikedPosts cold 0 0 55).

(** After [GetUserCreatedPosts(555)] and [GetUserLikedPosts(555)]. *)
Definition user555 : t :=
  state_of (GetUserLikedPosts (state_of (GetUserCreatedPosts cold 0 0 555)) 0 0 555).

(** A cache holding one entry stored at time 0. *)
Definition one_entry : QueryCache :=
  Set_ (NewQueryCache (5 * Minute)) 0 "categories_all" (CategorySummaries []).

Definition client : string := "203.0.113.7".

(** A limiter after one request under a limit of one per minute. *)
Definition spent : RateLimiter.t :=
  state_of (RateLimiter.Allow RateLimiter.NewRateLimiter 0 client 1 (1 * Minute)).

(** A limiter after one request under a limit of zero tokens. *)
Definition zero_limit : RateLimiter.t :=
  state_of (RateLimiter.Allow RateLimiter.NewRateLimiter 0 client 0 (1 * Second)).

(** Requests of one client under one tier of five per minute, and a sweep. *)
Definition five_per_minute : list RateLimiter.event :=
  [RateLimiter.EvAllow 0 client 5 (12 * Second);
   RateLimiter.EvAllow (1 * Second) client 5 (12 * Second);
   RateLimiter.EvSweep (10 * Minute);
   RateLimiter.EvAllow (11 * Minute) client 5 (12 * Second);
   RateLimiter.EvAllow (11 * Minute) client 5 (12 * Second)].

End Examples.

(** ** More example states *)

Module MoreExamples.

Import CachedPostQueryService Service Examples.

(** A session: two reads, a write to the database, an invalidation that
    panics on "categories_all", a cleanup tick and a read after expiry. *)
Definition session : list op :=
  [OpRead (Q_GetAllPosts 7) 0 0;
   OpRead Q_GetAllCategories (1 * Second) (1 * Second);
   OpWrite db_down;
   OpInvalidateUserCache 5;
   OpRead (Q_GetPostByID 1 7) (2 * Second) (2 * Second);
   OpCleanup (5 * Minute);
   OpRead (Q_GetAllPosts 7) (6 * Minute) (6 * Minute)].

(** A limiter that has seen two clients under a limit of one per minute. *)
Definition two_clients : RateLimiter.t :=
  state_of (RateLimiter.Allow spent (30 * Second) "198.51.100.9" 1 (1 * Minute)).


End MoreExamples.

(** * Properties *)

(** ** Strings: slicing and prefixes *)

Lemma substring_0_length (p s : string) :
  (len p ≤ len s)%nat →
  String.eqb (substring 0 (len p) s) p = HasPrefix s p.
Proof.
  unfold HasPrefix, len. revert s.
  induction p as [|a p IH]; intros [|b s] Hle; simpl in *; try lia; try done.
  destruct (ascii_dec a b) as [->|Hne].
  - rewrite Ascii.eqb_refl. apply IH. lia.
  - destruct (Ascii.eqb_spec b a) as [->|_]; [done|done].
Qed.

Lemma HasPrefix_len (s p : string) :
  HasPrefix s p = true → (len p ≤ len s)%nat.
Proof.
  unfold HasPrefix, len. revert s.
  induction p as [|a p IH]; intros [|b s]; simpl; try lia; try done.
  destruct (ascii_dec a b); [|done]. intros H%IH. lia.
Qed.

Lemma HasPrefix_empty (s : string) : HasPrefix s "" = true.
Proof. by destruct s. Qed.

Lemma HasPrefix_app (q s p : string) :
  HasPrefix s p = true → HasPrefix (q +:+ s) (q +:+ p) = true.
Proof.
  unfold HasPrefix. intros H. induction q as [|a q IH]; simpl; [done|].
  by destruct (ascii_dec a a).
Qed.

Lemma len_0_empty (p : string) : len p = 0%nat → p = "".
Proof. by destruct p. Qed.

(** The slice panics exactly on a key shorter than a non-empty prefix. *)
Lemma Invalidate_cond_None (keyPrefix key : string) :
  Invalidate_cond keyPrefix key = None ↔ (len key < len keyPrefix)%nat.
Proof.
  unfold Invalidate_cond, slice_to.
  destruct (Nat.eqb_spec (len keyPrefix) 0) as [E|E].
  - split; [done|lia].
  - destruct (decide (len keyPrefix ≤ len key)%nat); split; try done; lia.
Qed.

(** When it does not panic the condition is the prefix test. *)
Lemma Invalidate_cond_Some (keyPrefix key : string) (b : bool) :
  Invalidate_cond keyPrefix key = Some b → b = HasPrefix key keyPrefix.
Proof.
  unfold Invalidate_cond, slice_to.
  destruct (Nat.eqb_spec (len keyPrefix) 0) as [E|E].
  - intros [= <-]. apply len_0_empty in E as ->. by rewrite HasPrefix_empty.
  - destruct (decide (len keyPrefix ≤ len key)%nat) as [Hle|]; [|done].
    intros [= <-]. by apply substring_0_length.
Qed.

Lemma Invalidate_cond_long (keyPrefix key : string) :
  (len keyPrefix ≤ len key)%nat →
  Invalidate_cond keyPrefix key = Some (HasPrefix key keyPrefix).
Proof.
  intros Hle. destruct (Invalidate_cond keyPrefix key) as [b|] eqn:E.
  - by apply Invalidate_cond_Some in E as ->.
  - apply Invalidate_cond_None in E. lia.
Qed.

(** ** The loop of [Invalidate] *)

(** The loop runs to its end exactly when it meets no key shorter than the
    prefix. *)
Lemma Invalidate_loop_returns keyPrefix keys (m : gmap string cacheItem) :
  returns (Invalidate_loop keyPrefix keys m) = true ↔
  ∀ key, key ∈ keys → (len keyPrefix ≤ len key)%nat.
Proof.
  revert m. induction keys as [|k keys IH]; intros m; simpl.
  - split; [|done]. intros _ key Hin. by apply elem_of_nil in Hin.
  - destruct (Invalidate_cond keyPrefix k) as [b|] eqn:E.
    + assert (len keyPrefix ≤ len k)%nat as Hk.
      { destruct (decide (len keyPrefix ≤ len k)%nat) as [|Hn]; [done|].
        assert (Invalidate_cond keyPrefix k = None) as E'
          by (apply Invalidate_cond_None; lia).
        congruence. }
      assert (returns (Invalidate_loop keyPrefix keys
                (if b then delete k m else m)) = true ↔
              ∀ key, key ∈ k :: keys → (len keyPrefix ≤ len key)%nat) as Hgoal.
      { rewrite IH. split.
        - intros H key [->|Hin]%elem_of_cons; auto.
        - intros H key Hin. apply H. by right. }
      by destruct b.
    + apply Invalidate_cond_None in E. split; [done|].
      intros H. specialize (H k ltac:(left)). lia.
Qed.

(** Whatever the outcome, a key that does not start with the prefix keeps
    its entry, and no entry is added or changed. *)
Lemma Invalidate_loop_frame keyPrefix keys (m : gmap string cacheItem) key :
  HasPrefix key keyPrefix = false →
  state_of (Invalidate_loop keyPrefix keys m) !! key = m !! key.
Proof.
  intros Hk. revert m. induction keys as [|k keys IH]; intros m; simpl; [done|].
  destruct (Invalidate_cond keyPrefix k) as [[]|] eqn:E; [|by apply IH|done].
  rewrite IH. apply lookup_delete_ne. intros ->.
  apply Invalidate_cond_Some in E. congruence.
Qed.

Lemma Invalidate_loop_shrinks keyPrefix keys (m : gmap string cacheItem) key :
  state_of (Invalidate_loop keyPrefix keys m) !! key = None ∨
  state_of (Invalidate_loop keyPrefix keys m) !! key = m !! key.
Proof.
  revert m. induction keys as [|k keys IH]; intros m; simpl; [by right|].
  destruct (Invalidate_cond keyPrefix k) as [[]|] eqn:E; [|by apply IH|by right].
  destruct (IH (delete k m)) as [H|H]; [by left|].
  destruct (decide (k = key)) as [->|Hne].
  - left. by rewrite H, lookup_delete_eq.
  - right. by rewrite H, lookup_delete_ne.
Qed.

(** When the loop returns, every visited key that starts with the prefix is
    gone. *)
Lemma Invalidate_loop_removes keyPrefix keys (m m' : gmap string cacheItem) key :
  Invalidate_loop keyPrefix keys m = Returned tt m' →
  key ∈ keys → HasPrefix key keyPrefix = true →
  m' !! key = None.
Proof.
  revert m. induction keys as [|k keys IH]; intros m Hret Hin Hp; simpl in *.
  - by apply elem_of_nil in Hin.
  - destruct (Invalidate_cond keyPrefix k) as [b|] eqn:E; [|done].
    apply Invalidate_cond_Some in E.
    apply elem_of_cons in Hin as [->|Hin].
    + rewrite Hp in E. subst b.
      pose proof (Invalidate_loop_shrinks keyPrefix keys (delete k m) k) as Hs.
      rewrite Hret in Hs. simpl in Hs. rewrite lookup_delete_eq in Hs.
      by destruct Hs.
    + destruct b; eauto.
Qed.

(** ** QueryCache: Get and Set *)

Lemma Get_found (c : QueryCache) (now : Time) (key : string) (d : any) :
  Get c now key = (d, true) ↔
  ∃ item, items c !! key = Some item ∧ now ≤ expiresAt item ∧ d = data item.
Proof.
  unfold Get, After. split.
  - destruct (items c !! key) as [item|]; [|done].
    case_bool_decide; [done|]. intros [= <-]. exists item. split_and!; [done|lia|done].
  - intros (item & -> & Hle & ->). rewrite bool_decide_eq_false_2; [done|lia].
Qed.

Lemma Get_miss (c : QueryCache) (now : Time) (key : string) :
  (Get c now key).2 = false → Get c now key = (nil_any, false).
Proof.
  unfold Get. destruct (items c !! key) as [item|]; [|done].
  by destruct (After now (expiresAt item)).
Qed.

(** A miss stays a miss as time passes, as long as nothing is stored. *)
Lemma Get_miss_later (c : QueryCache) (t1 t3 : Time) (key : string) :
  t1 ≤ t3 → (Get c t1 key).2 = false → (Get c t3 key).2 = false.
Proof.
  unfold Get, After. intros Hle.
  destruct (items c !! key) as [item|]; [|done].
  case_bool_decide; [|done]. intros _. rewrite bool_decide_eq_true_2; [done|lia].
Qed.

Lemma Get_Set_eq (c : QueryCache) (t_set now : Time) (key : string) (d : any) :
  now ≤ Add t_set (ttl c) →
  Get (Set_ c t_set key d) now key = (d, true).
Proof.
  intros Hle. apply Get_found. eexists. split; [apply lookup_insert_eq|done].
Qed.

Lemma Get_Set_ne (c : QueryCache) (t_set now : Time) (key key' : string) (d : any) :
  key ≠ key' →
  Get (Set_ c t_set key d) now key' = Get c now key'.
Proof.
  intros Hne. unfold Get, Set_. simpl. by rewrite lookup_insert_ne.
Qed.

(** C2: an entry is hidden from [Get] as soon as the clock is strictly past
    its [expiresAt], whether or not a sweep has deleted it. *)
Theorem Get_after_expiry (c : QueryCache) (now : Time) (key : string) (item : cacheItem) :
  items c !! key = Some item →
  expiresAt item < now →
  Get c now key = (nil_any, false).
Proof.
  intros Hk Hlt. unfold Get, After. rewrite Hk.
  by rewrite bool_decide_eq_true_2.
Qed.

(** At the expiry instant itself the entry is still served. *)
Lemma Get_at_expiry (c : QueryCache) (key : string) (item : cacheItem) :
  items c !! key = Some item →
  Get c (expiresAt item) key = (data item, true).
Proof.
  intros Hk. apply Get_found. exists item. split_and!; [done|lia|done].
Qed.

(** ** QueryCache: Invalidate and cleanup *)

Lemma cleanup_loop_lookup (now : Time) keys (m : gmap string cacheItem) key :
  cleanup_loop now keys m !! key =
  match m !! key with
  | Some item =>
      if decide (key ∈ keys ∧ expiresAt item < now) then None else Some item
  | None => None
  end.
Proof.
  revert m. induction keys as [|k keys IH]; intros m; cbn [cleanup_loop].
  - destruct (m !! key); [|done]. rewrite decide_False; [done|].
    intros [H _]. by apply elem_of_nil in H.
  - assert (∀ m0, m0 !! key = m !! key →
        (∀ item, m !! key = Some item → expiresAt item < now → key ≠ k) →
        cleanup_loop now keys m0 !! key =
        match m !! key with
        | Some item =>
            if decide (key ∈ k :: keys ∧ expiresAt item < now) then None
            else Some item
        | None => None
        end) as Hsame.
    { intros m0 E Hk. rewrite IH, E. destruct (m !! key) as [item|] eqn:Ei; [|done].
      destruct (decide (key ∈ keys ∧ expiresAt item < now)) as [[H1 H2]|Hn];
        destruct (decide (key ∈ k :: keys ∧ expiresAt item < now)) as [[H3 H4]|Hn'];
        try done.
      - exfalso. apply Hn'. split; [by right|done].
      - exfalso. apply elem_of_cons in H3 as [->|H3].
        + by apply (Hk item).
        + by apply Hn. }
    destruct (m !! k) as [item|] eqn:Ek.
    + unfold After. case_bool_decide as Hexp.
      * destruct (decide (key = k)) as [->|Hne].
        -- rewrite IH, lookup_delete_eq, Ek.
           rewrite decide_True; [done|]. split; [by left|done].
        -- rewrite IH, lookup_delete_ne by done.
           destruct (m !! key) as [item'|]; [|done].
           destruct (decide (key ∈ keys ∧ expiresAt item' < now)) as [[H1 H2]|Hn];
             destruct (decide (key ∈ k :: keys ∧ expiresAt item' < now))
               as [[H3 H4]|Hn']; try done.
           ++ exfalso. apply Hn'. split; [by right|done].
           ++ exfalso. apply elem_of_cons in H3 as [->|H3]; [done|by apply Hn].
      * apply Hsame; [done|]. intros item' E' Hlt ->. congruence.
    + apply Hsame; [done|]. intros item' E' Hlt ->. congruence.
Qed.

Section QueryCacheProperties.

Variable range : gmap string cacheItem → list string.
Hypothesis range_keys : ∀ m, range m ≡ₚ map_keys m.

Lemma elem_of_range (m : gmap string cacheItem) (key : string) :
  key ∈ range m ↔ is_Some (m !! key).
Proof.
  rewrite range_keys. unfold map_keys. rewrite list_elem_of_fmap. split.
  - intros ([k v] & -> & Hin). apply elem_of_map_to_list in Hin. by exists v.
  - intros [v Hv]. exists (key, v). split; [done|]. by apply elem_of_map_to_list.
Qed.

Lemma Invalidate_state (c : QueryCache) (keyPrefix : string) :
  state_of (Invalidate range c keyPrefix) =
  with_items c (state_of (Invalidate_loop keyPrefix (range (items c)) (items c))).
Proof. unfold Invalidate. by destruct (Invalidate_loop _ _ _). Qed.

(** [Invalidate] returns exactly when no stored key is shorter than the
    prefix; otherwise the slice expression panics. *)
Lemma Invalidate_returns_iff (c : QueryCache) (keyPrefix : string) :
  returns (Invalidate range c keyPrefix) = true ↔
  ∀ key, is_Some (items c !! key) → (len keyPrefix ≤ len key)%nat.
Proof.
  unfold Invalidate.
  pose proof (Invalidate_loop_returns keyPrefix (range (items c)) (items c)) as H.
  destruct (Invalidate_loop _ _ _); simpl in *; rewrite H;
    by setoid_rewrite elem_of_range.
Qed.

(** What a call that returns leaves behind. *)
Lemma Invalidate_lookup (c c' : QueryCache) (keyPrefix key : string) :
  Invalidate range c keyPrefix = Returned tt c' →
  items c' !! key = if HasPrefix key keyPrefix then None else items c !! key.
Proof.
  unfold Invalidate. intros Hret.
  destruct (Invalidate_loop keyPrefix (range (items c)) (items c))
    as [[] m'|] eqn:E; [|done].
  injection Hret as <-. simpl.
  destruct (HasPrefix key keyPrefix) eqn:Hp.
  - destruct (items c !! key) as [item|] eqn:Hk.
    + eapply Invalidate_loop_removes; [done| |done].
      apply elem_of_range. by rewrite Hk.
    + pose proof (Invalidate_loop_shrinks keyPrefix (range (items c)) (items c) key)
        as Hs.
      rewrite E in Hs. simpl in Hs. rewrite Hk in Hs. by destruct Hs.
  - pose proof (Invalidate_loop_frame keyPrefix (range (items c)) (items c) key Hp)
      as Hf.
    by rewrite E in Hf.
Qed.

Lemma Invalidate_ttl (c : QueryCache) (keyPrefix : string) :
  ttl (state_of (Invalidate range c keyPrefix)) = ttl c.
Proof. by rewrite Invalidate_state. Qed.

(** With no key shorter than the prefix, [Invalidate] removes the entries
    whose key starts with the prefix and nothing else. *)
Lemma Invalidate_removes_exactly (c : QueryCache) (keyPrefix : string) :
  (∀ key, is_Some (items c !! key) → (len keyPrefix ≤ len key)%nat) →
  Invalidate range c keyPrefix =
  Returned tt
    (with_items c (filter (λ kv, HasPrefix kv.1 keyPrefix = false) (items c))).
Proof.
  intros Hlen. apply Invalidate_returns_iff in Hlen.
  destruct (Invalidate range c keyPrefix) as [[] c'|] eqn:E; [|done].
  f_equal. pose proof (Invalidate_ttl c keyPrefix) as Httl.
  rewrite E in Httl. simpl in Httl.
  destruct c' as [m' ttl']. simpl in *. subst ttl'. unfold with_items. f_equal.
  apply map_eq. intros key.
  pose proof (Invalidate_lookup c _ keyPrefix key E) as Hl. simpl in Hl.
  rewrite Hl, map_lookup_filter.
  destruct (HasPrefix key keyPrefix) eqn:Hp;
    destruct (items c !! key) as [item|]; simpl; try done.
  - rewrite option_guard_False; [done|]. simpl. congruence.
  - rewrite option_guard_True; done.
Qed.

(** The empty prefix flushes the cache. *)
Lemma Invalidate_empty_prefix (c : QueryCache) :
  Invalidate range c "" = Returned tt (with_items c ∅).
Proof.
  rewrite Invalidate_removes_exactly by (intros; simpl; lia).
  do 2 f_equal. apply map_eq. intros key.
  rewrite map_lookup_filter, lookup_empty.
  destruct (items c !! key); simpl; [|done].
  rewrite option_guard_False; [done|]. simpl. by rewrite HasPrefix_empty.
Qed.

(** C1: [Invalidate] panics whenever the cache holds a key shorter than
    the prefix: the slice [key[:len(keyPrefix)]] is out of range. *)
Theorem Invalidate_panics_on_short_key (c : QueryCache) (keyPrefix key : string) :
  is_Some (items c !! key) →
  (len key < len keyPrefix)%nat →
  returns (Invalidate range c keyPrefix) = false.
Proof.
  intros Hk Hlt. apply not_true_is_false. intros Hret.
  pose proof (proj1 (Invalidate_returns_iff c keyPrefix) Hret key Hk). lia.
Qed.

(** C5: when the runtime visits a key shorter than the prefix first,
    [Invalidate] panics before it has removed anything: every entry whose
    key starts with the prefix is still there. *)
Theorem Invalidate_short_key_first_removes_nothing
    (c : QueryCache) (keyPrefix key : string) (rest : list string) :
  range (items c) = key :: rest →
  (len key < len keyPrefix)%nat →
  Invalidate range c keyPrefix = Panicked c.
Proof.
  intros Hr Hlt. unfold Invalidate. rewrite Hr. simpl.
  apply Invalidate_cond_None in Hlt. rewrite Hlt. by destruct c.
Qed.

(** One pass of [cleanup] deletes the entries past their expiry and keeps
    the others as they are. *)
Lemma cleanup_pass_lookup (c : QueryCache) (now : Time) (key : string) :
  items (cleanup_pass range c now) !! key =
  match items c !! key with
  | Some item => if decide (expiresAt item < now) then None else Some item
  | None => None
  end.
Proof.
  unfold cleanup_pass. simpl. rewrite cleanup_loop_lookup.
  destruct (items c !! key) as [item|] eqn:Hk; [|done].
  assert (key ∈ range (items c)) by (apply elem_of_range; by rewrite Hk).
  destruct (decide (key ∈ range (items c) ∧ expiresAt item < now)) as [[_ H1]|Hn];
    destruct (decide (expiresAt item < now)) as [H2|H2]; try done.
  exfalso. by apply Hn.
Qed.

(** C9: a pass of [cleanup] run at or before the time of a [Get] does not
    change what the [Get] returns. *)
Theorem Get_cleanup_pass (c : QueryCache) (tick now : Time) (key : string) :
  tick ≤ now →
  Get (cleanup_pass range c tick) now key = Get c now key.
Proof.
  intros Hle. unfold Get. rewrite cleanup_pass_lookup.
  destruct (items c !! key) as [item|]; [|done].
  case_decide as Hexp; [|done].
  unfold After. rewrite bool_decide_eq_true_2; [done|lia].
Qed.

(** The same for all the passes the reclaimer has made so far. *)
Lemma Get_cleanup (c : QueryCache) (ticks : list Time) (now : Time) (key : string) :
  Forall (λ tick, tick ≤ now) ticks →
  Get (cleanup range c ticks) now key = Get c now key.
Proof.
  unfold cleanup. intros H. revert c.
  induction H as [|tick ticks Hle _ IH]; intros c; simpl; [done|].
  by rewrite IH, Get_cleanup_pass.
Qed.

End QueryCacheProperties.

Lemma canonical_range_keys {V} (m : gmap string V) : canonical_range m ≡ₚ map_keys m.
Proof. done. Qed.

(** ** CachedPostQueryService *)

Import CachedPostQueryService.

Lemma len_append (a b : string) : len (a +:+ b) = (len a + len b)%nat.
Proof. unfold len. induction a as [|x a IH]; simpl; [done|]. by rewrite IH. Qed.

(** The value a read of [GetAllPosts] leaves in the cache is served to the
    next read made before the entry expires. *)
Lemma GetAllPosts_hit (s : t) (t_get t_set : Time) (userID : Z) (v : list PostListItem) :
  Get (cache s) t_get ("posts_all_user_" +:+ Sprintf_d userID) = (PostListItems v, true) →
  GetAllPosts s t_get t_set userID = Returned (v, None) s.
Proof. unfold GetAllPosts. by intros ->. Qed.

(** C3: on a hit [GetAllPosts] returns the cached list and leaves the query
    service alone; on a miss it queries once, stores the list and returns
    it, and a following call made before the entry expires returns the same
    list without querying, whatever the database holds by then. *)
Theorem GetAllPosts_cache_aside :
  (∀ (s : t) (t_get t_set : Time) (userID : Z) (v : list PostListItem),
     Get (cache s) t_get ("posts_all_user_" +:+ Sprintf_d userID)
       = (PostListItems v, true) →
     GetAllPosts s t_get t_set userID = Returned (v, None) s) ∧
  (∀ (s : t) (t1 t2 : Time) (userID : Z) (posts : list PostListItem),
     (Get (cache s) t1 ("posts_all_user_" +:+ Sprintf_d userID)).2 = false →
     db_GetAllPosts (PostQueryService.db (queryService s)) userID = (posts, None) →
     ∃ s1,
       GetAllPosts s t1 t2 userID = Returned (posts, None) s1 ∧
       PostQueryService.calls (queryService s1)
         = PostQueryService.calls (queryService s) ++ [Q_GetAllPosts userID] ∧
       ∀ (d : Database) (t3 t4 : Time),
         t3 ≤ Add t2 (ttl (cache s)) →
         let s2 := with_queryService s1 (PostQueryService.with_db (queryService s1) d) in
         GetAllPosts s2 t3 t4 userID = Returned (posts, None) s2).
Proof.
  split.
  - apply GetAllPosts_hit.
  - intros s t1 t2 userID posts Hmiss Hdb.
    unfold GetAllPosts at 1. rewrite (Get_miss _ _ _ Hmiss).
    unfold PostQueryService.GetAllPosts. rewrite Hdb.
    eexists. split_and!; [done|done|].
    intros d t3 t4 Hle. apply GetAllPosts_hit.
    simpl. by apply Get_Set_eq.
Qed.

(** C4: when the query fails, [GetAllPosts] hands the error back as it is
    and stores nothing; the next call, at any later time, queries again. *)
Theorem GetAllPosts_error_not_cached
    (s : t) (t1 t2 t3 t4 : Time) (userID : Z) (posts : list PostListItem) (e : string) :
  (Get (cache s) t1 ("posts_all_user_" +:+ Sprintf_d userID)).2 = false →
  db_GetAllPosts (PostQueryService.db (queryService s)) userID = (posts, Some e) →
  t1 ≤ t3 →
  ∃ s1,
    GetAllPosts s t1 t2 userID = Returned ([], Some e) s1 ∧
    cache s1 = cache s ∧
    PostQueryService.calls (queryService s1)
      = PostQueryService.calls (queryService s) ++ [Q_GetAllPosts userID] ∧
    ∃ s2,
      GetAllPosts s1 t3 t4 userID = Returned ([], Some e) s2 ∧
      cache s2 = cache s ∧
      PostQueryService.calls (queryService s2)
        = PostQueryService.calls (queryService s)
            ++ [Q_GetAllPosts userID; Q_GetAllPosts userID].
Proof.
  intros Hmiss Hdb Hle.
  unfold GetAllPosts at 1. rewrite (Get_miss _ _ _ Hmiss).
  unfold PostQueryService.GetAllPosts. rewrite Hdb.
  eexists. split_and!; [done|done|done|].
  unfold GetAllPosts. cbn [cache with_queryService].
  rewrite (Get_miss _ _ _ (Get_miss_later _ _ _ _ Hle Hmiss)).
  unfold PostQueryService.GetAllPosts. cbn [queryService with_queryService
    PostQueryService.db PostQueryService.call]. rewrite Hdb.
  eexists. split_and!; [done|done|]. simpl. by rewrite <- app_assoc.
Qed.

Section InvalidationProperties.

Variable range : gmap string cacheItem → list string.
Hypothesis range_keys : ∀ m, range m ≡ₚ map_keys m.

Lemma Invalidate_keeps_lengths (c c' : QueryCache) (keyPrefix : string) (n : nat) :
  (∀ key, is_Some (items c !! key) → (n ≤ len key)%nat) →
  Invalidate range c keyPrefix = Returned tt c' →
  ∀ key, is_Some (items c' !! key) → (n ≤ len key)%nat.
Proof.
  intros Hlen Hret key. rewrite (Invalidate_lookup range range_keys c c' _ _ Hret).
  destruct (HasPrefix key keyPrefix); [by intros [? ?]|apply Hlen].
Qed.

(** [InvalidateUserCache] returns when no cached key is shorter than the
    longest of its three prefixes. *)
Lemma InvalidateUserCache_returns (s : t) (userID : Z) :
  (∀ key, is_Some (items (cache s) !! key) →
          (len ("posts_created_user_" +:+ Sprintf_d userID) ≤ len key)%nat) →
  returns (InvalidateUserCache range s userID) = true.
Proof.
  intros Hlen. unfold InvalidateUserCache, lift, and_then.
  assert (∀ p c, (len p ≤ len ("posts_created_user_" +:+ Sprintf_d userID))%nat →
    (∀ key, is_Some (items c !! key) →
       (len ("posts_created_user_" +:+ Sprintf_d userID) ≤ len key)%nat) →
    ∃ c', Invalidate range c p = Returned tt c' ∧
      (∀ key, is_Some (items c' !! key) →
         (len ("posts_created_user_" +:+ Sprintf_d userID) ≤ len key)%nat))
    as Hstep.
  { intros p c Hp Hc.
    assert (returns (Invalidate range c p) = true) as Hr.
    { apply Invalidate_returns_iff; [done|]. intros key Hk.
      specialize (Hc key Hk). lia. }
    destruct (Invalidate range c p) as [[] c'|] eqn:E; [|done].
    exists c'. split; [done|]. by eapply Invalidate_keeps_lengths. }
  destruct (Hstep ("user_" +:+ Sprintf_d userID) (cache s)) as (c1 & -> & H1);
    [rewrite !len_append; simpl; lia|done|].
  destruct (Hstep ("posts_created_user_" +:+ Sprintf_d userID) c1) as (c2 & -> & H2);
    [done|done|].
  destruct (Hstep ("posts_liked_user_" +:+ Sprintf_d userID) c2) as (c3 & -> & H3);
    [rewrite !len_append; simpl; lia|done|].
  done.
Qed.

(** When [InvalidateUserCache u] returns, the created-posts and
    liked-posts entries of every user whose decimal id starts with the
    decimal id of [u] are gone as well. *)
Theorem InvalidateUserCache_reaches_longer_ids (s s' : t) (u w : Z) :
  HasPrefix (Sprintf_d w) (Sprintf_d u) = true →
  InvalidateUserCache range s u = Returned tt s' →
  items (cache s') !! ("posts_created_user_" +:+ Sprintf_d w) = None ∧
  items (cache s') !! ("posts_liked_user_" +:+ Sprintf_d w) = None.
Proof.
  intros Hp. unfold InvalidateUserCache, lift, and_then.
  destruct (Invalidate range (cache s) _) as [[] c1|] eqn:E1; [|done].
  destruct (Invalidate range c1 _) as [[] c2|] eqn:E2; [|done].
  destruct (Invalidate range c2 _) as [[] c3|] eqn:E3; [|done].
  intros [= <-]. cbn [cache with_cache].
  rewrite !(Invalidate_lookup range range_keys c2 c3 _ _ E3).
  rewrite (HasPrefix_app "posts_liked_user_" _ _ Hp).
  split; [|done].
  rewrite (Invalidate_lookup range range_keys c1 c2 _ _ E2).
  rewrite (HasPrefix_app "posts_created_user_" _ _ Hp).
  by destruct (HasPrefix _ _).
Qed.

End InvalidationProperties.

(** ** Machine integers *)

Lemma wrap64_id (z : Z) : min_int ≤ z ≤ max_int → wrap64 z = z.
Proof.
  unfold wrap64, min_int, max_int.
  change (2 ^ 63) with 9223372036854775808.
  change (2 ^ 64) with 18446744073709551616.
  intros H. Z.to_euclidean_division_equations. lia.
Qed.

Lemma Sub_exact (t u : Time) : min_int ≤ t - u ≤ max_int → Sub t u = t - u.
Proof. unfold Sub. intros H. repeat case_decide; lia. Qed.

Lemma Sub_range (t u : Time) : min_int ≤ Sub t u ≤ max_int.
Proof. unfold Sub, min_int, max_int. repeat case_decide; lia. Qed.


(** ** RateLimiter *)

Import RateLimiter.

Lemma store_lookup_eq (rl : RateLimiter.t) key v : visitors (store rl key v) !! key = Some v.
Proof. apply lookup_insert_eq. Qed.

Lemma store_lookup_ne (rl : RateLimiter.t) key key' v :
  key ≠ key' → visitors (store rl key v) !! key' = visitors rl !! key'.
Proof. intros H. by apply lookup_insert_ne. Qed.

Lemma store_id (rl : RateLimiter.t) key v : visitors rl !! key = Some v → store rl key v = rl.
Proof. intros H. destruct rl as [m]. unfold store. simpl in *. by rewrite insert_id. Qed.

Lemma Allow_new (rl : RateLimiter.t) now key maxTokens refillRate :
  visitors rl !! key = None →
  Allow rl now key maxTokens refillRate =
  Returned true (store rl key {| tokens := int_sub maxTokens 1; lastRefill := now |}).
Proof. unfold Allow. by intros ->. Qed.

(** C8: for an identity that has a non-negative count, under a limit of at
    least one token and a refill sum that stays in range: a call that is
    rejected leaves the limiter as it was; a call that finds a token after
    the refill takes it and is admitted; and a call that finds none is
    rejected, with the limiter as it was. *)
Theorem Allow_rejection_leaves_state
    (rl : RateLimiter.t) (now : Time) (key : string) (maxTokens : Z)
    (refillRate : Duration) (v : visitor) :
  visitors rl !! key = Some v →
  1 ≤ maxTokens →
  0 ≤ tokens v →
  (∀ n, tokensToAdd v now refillRate = Some n → tokens v + n ≤ max_int) →
  (∀ rl', Allow rl now key maxTokens refillRate = Returned false rl' → rl' = rl) ∧
  (∀ n, tokensToAdd v now refillRate = Some n →
     0 < tokens (refill v now maxTokens n) →
     Allow rl now key maxTokens refillRate =
     Returned true
       (store rl key {| tokens := int_sub (tokens (refill v now maxTokens n)) 1;
                        lastRefill := lastRefill (refill v now maxTokens n) |})) ∧
  (∀ n, tokensToAdd v now refillRate = Some n →
     ¬ 0 < tokens (refill v now maxTokens n) →
     Allow rl now key maxTokens refillRate = Returned false rl).
Proof.
  intros Hv HM Htok Hsum. unfold Allow. rewrite Hv.
  destruct (tokensToAdd v now refillRate) as [n|]; [|split_and!; intros; done].
  specialize (Hsum n eq_refl).
  assert (¬ 0 < tokens (refill v now maxTokens n) →
          store rl key (refill v now maxTokens n) = rl) as Hsame.
  { intros Hpos. unfold refill in *. case_decide as Hn.
    - exfalso. apply Hpos. simpl. unfold int_add.
      rewrite wrap64_id by (unfold min_int, max_int in *; lia).
      unfold min. case_decide; lia.
    - by apply store_id. }
  split_and!.
  - intros rl'. case_decide as Hpos; [done|]. intros [= <-]. by apply Hsame.
  - intros n' [= <-] Hpos. by rewrite decide_True.
  - intros n' [= <-] Hpos. rewrite decide_False by done. f_equal. by apply Hsame.
Qed.

(** One call under the policy of five tokens and a token back every twelve
    seconds, for a visitor created at [t1] that has [n] tokens left if it
    was never refilled, and more if it was. *)
Lemma Allow_existing_12s (rl : RateLimiter.t) (key : string) (v : visitor)
    (now t1 tprev : Time) (n : Z) :
  visitors rl !! key = Some v →
  0 ≤ n ≤ 4 → tprev ≤ now → t1 ≤ tprev →
  (tokens v = n ∧ lastRefill v = t1) ∨
  (n < tokens v ≤ 4 ∧ t1 + 12 * Second ≤ lastRefill v ≤ tprev) →
  ∃ v', Allow rl now key 5 (12 * Second) =
          Returned (bool_decide (0 < n ∨ 12 * Second ≤ now - t1)) (store rl key v') ∧
        ((tokens v' = n - 1 ∧ lastRefill v' = t1 ∧ 0 < n) ∨
         (n - 1 < tokens v' ≤ 4 ∧ t1 + 12 * Second ≤ lastRefill v' ≤ now) ∨
         (n = 0 ∧ v' = v ∧ now - t1 < 12 * Second)).
Proof.
  intros Hv Hn Hnow Ht1 Hinv. unfold Allow. rewrite Hv.
  assert (∃ a, tokensToAdd v now (12 * Second) = Some a ∧
               0 ≤ a ≤ 2 ^ 30 ∧ (0 < a ↔ 12 * Second ≤ now - lastRefill v))
    as (a & -> & Ha & Hpos).
  { unfold tokensToAdd, int_div. rewrite decide_False by done.
    eexists. split; [done|].
    pose proof (Sub_range now (lastRefill v)) as Hr.
    assert (0 ≤ Sub now (lastRefill v)) as H0
      by (unfold Sub, min_int, max_int; repeat case_decide; lia).
    assert (12 * Second ≤ Sub now (lastRefill v) ↔ 12 * Second ≤ now - lastRefill v)
      as Hiff by (unfold Sub, min_int, max_int, Second; repeat case_decide; lia).
    revert Hr H0 Hiff. generalize (Sub now (lastRefill v)). intros e Hr H0 Hiff.
    rewrite <- Hiff. clear Hiff.
    assert (0 ≤ e ÷ (12 * Second) ≤ 2 ^ 30 ∧ (0 < e ÷ (12 * Second) ↔ 12 * Second ≤ e))
      as [Hq Hq'].
    { unfold min_int, max_int, Second in *.
      change (2 ^ 63) with 9223372036854775808 in *.
      change (2 ^ 30) with 1073741824.
      Z.to_euclidean_division_equations. lia. }
    rewrite wrap64_id; [done|].
    unfold min_int, max_int. change (2 ^ 30) with 1073741824 in *.
    change (2 ^ 63) with 9223372036854775808. lia. }
  change (2 ^ 30) with 1073741824 in *.
  assert (∀ x, 0 ≤ x ≤ 2 ^ 31 → wrap64 x = x) as Hw.
  { intros x Hx. apply wrap64_id. unfold min_int, max_int.
    change (2 ^ 63) with 9223372036854775808. change (2 ^ 31) with 2147483648 in *.
    lia. }
  change (2 ^ 31) with 2147483648 in *.
  unfold refill, int_add, int_sub, RateLimiter.min.
  destruct (decide (0 < a)) as [Hadd|Hadd]; cbn [tokens lastRefill].
  - rewrite Hw by lia.
    assert (12 * Second ≤ now - t1) by (unfold Second in *; lia).
    rewrite decide_True by (case_decide; lia).
    rewrite bool_decide_eq_true_2 by lia.
    eexists. split; [done|]. cbn [tokens lastRefill].
    right. left. rewrite Hw by (case_decide; lia).
    unfold Second in *. case_decide; lia.
  - destruct (decide (0 < tokens v)) as [Htok|Htok].
    + rewrite Hw by lia. eexists. split; [|cbn [tokens lastRefill]].
      * f_equal. rewrite bool_decide_eq_true_2; [done|].
        unfold Second in *. destruct Hinv as [[? ?]|[? ?]]; lia.
      * simpl. unfold Time, Second in *.
        destruct Hinv as [[? ?]|[? ?]]; [left|right; left]; lia.
    + destruct Hinv as [[Hz Hlr]|[? ?]]; [|lia].
      exists v. split.
      * f_equal. rewrite bool_decide_eq_false_2; [done|]. subst. lia.
      * right. right. unfold Time in *. split_and!; [lia|done|]. subst. lia.
Qed.

(** C6: with five tokens and a window of one minute a token comes back
    every twelve seconds.  The first five calls of a new identity are
    admitted whenever they are made, and the sixth is rejected exactly when
    it comes less than twelve seconds after the first. *)
Theorem Allow_five_then_sixth
    (rl : RateLimiter.t) (key : string) (refillRate : Duration)
    (t1 t2 t3 t4 t5 t6 : Time) :
  visitors rl !! key = None →
  int_div (1 * Minute) 5 = Some refillRate →
  t1 ≤ t2 → t2 ≤ t3 → t3 ≤ t4 → t4 ≤ t5 → t5 ≤ t6 →
  Allow_seq rl key 5 refillRate [t1; t2; t3; t4; t5; t6] =
  [Some true; Some true; Some true; Some true; Some true;
   Some (bool_decide (refillRate ≤ t6 - t1))].
Proof.
  intros Hnew Hrate H12 H23 H34 H45 H56.
  assert (refillRate = 12 * Second) as ->
    by (vm_compute in Hrate; by injection Hrate as <-).
  unfold Time in *.
  cbn [Allow_seq]. rewrite (Allow_new _ _ _ _ _ Hnew). cbn [Allow_seq].
  set (v1 := {| tokens := int_sub 5 1; lastRefill := t1 |}).
  destruct (Allow_existing_12s (store rl key v1) key v1 t2 t1 t1 4)
    as (v2 & -> & I2); [apply store_lookup_eq|lia|lia|lia|by left|].
  rewrite bool_decide_eq_true_2 by lia. cbn [Allow_seq].
  destruct (Allow_existing_12s (store (store rl key v1) key v2) key v2 t3 t1 t2 3)
    as (v3 & -> & I3); [apply store_lookup_eq|lia|lia|lia|lia|].
  rewrite bool_decide_eq_true_2 by lia. cbn [Allow_seq].
  destruct (Allow_existing_12s (store (store (store rl key v1) key v2) key v3)
              key v3 t4 t1 t3 2)
    as (v4 & -> & I4); [apply store_lookup_eq|lia|lia|lia|lia|].
  rewrite bool_decide_eq_true_2 by lia. cbn [Allow_seq].
  destruct (Allow_existing_12s
              (store (store (store (store rl key v1) key v2) key v3) key v4)
              key v4 t5 t1 t4 1)
    as (v5 & -> & I5); [apply store_lookup_eq|lia|lia|lia|lia|].
  rewrite bool_decide_eq_true_2 by lia. cbn [Allow_seq].
  destruct (Allow_existing_12s
              (store (store (store (store (store rl key v1) key v2) key v3) key v4)
                 key v5)
              key v5 t6 t1 t5 0)
    as (v6 & -> & _); [apply store_lookup_eq|lia|lia|lia|lia|].
  cbn [Allow_seq]. do 5 f_equal. f_equal. f_equal. apply bool_decide_ext. lia.
Qed.




(** * The properties at concrete inputs *)

Import Examples.

(** After a lookup of the categories and of user 5's posts, invalidating
    user 5's created posts panics. *)
Lemma Invalidate_panics_on_short_key_witness :
  is_Some (items (cache categories_and_user5) !! "categories_all") ∧
  (len "categories_all" < len "posts_created_user_5")%nat ∧
  returns (Invalidate canonical_range (cache categories_and_user5)
             "posts_created_user_5") = false.
Proof.
  assert (is_Some (items (cache categories_and_user5) !! "categories_all")) as H1
    by (vm_compute; eauto).
  assert (len "categories_all" < len "posts_created_user_5")%nat as H2
    by (vm_compute; lia).
  split_and!; [done|done|].
  exact (Invalidate_panics_on_short_key canonical_range
           (λ m, canonical_range_keys m) _ _ _ H1 H2).
Defined.

(** The same call leaves the entry it was to remove in place when the
    shorter key comes first. *)
Lemma Invalidate_short_key_first_removes_nothing_witness :
  HasPrefix "posts_created_user_5" "posts_created_user_5" = true ∧
  is_Some (items (cache categories_and_user5) !! "posts_created_user_5") ∧
  Invalidate canonical_range (cache categories_and_user5) "posts_created_user_5"
    = Panicked (cache categories_and_user5).
Proof.
  split_and!; [reflexivity|vm_compute; eauto|].
  apply (Invalidate_short_key_first_removes_nothing canonical_range
           (cache categories_and_user5) "posts_created_user_5" "categories_all"
           ["posts_created_user_5"]).
  - vm_compute. reflexivity.
  - vm_compute. lia.
Defined.

(** One nanosecond past its expiry the entry is hidden. *)
Lemma Get_after_expiry_witness :
  Get one_entry (5 * Minute + 1) "categories_all" = (nil_any, false).
Proof.
  apply (Get_after_expiry one_entry (5 * Minute + 1) "categories_all"
           {| data := CategorySummaries []; expiresAt := 5 * Minute |}).
  - vm_compute. reflexivity.
  - vm_compute. reflexivity.
Defined.

(** C2, as stated, fails at the expiry instant: with [now = expiresAt] the
    entry is returned. *)
Lemma Get_returns_entry_at_expiry :
  ∃ item, items one_entry !! "categories_all" = Some item ∧
          5 * Minute >= expiresAt item ∧
          Get one_entry (5 * Minute) "categories_all" = (data item, true).
Proof.
  exists {| data := CategorySummaries []; expiresAt := 5 * Minute |}.
  split_and!; [vm_compute; reflexivity|vm_compute; discriminate|
               vm_compute; reflexivity].
Qed.

Lemma GetAllPosts_cache_aside_witness :
  GetAllPosts warm 1 1 7 = Returned ([example_post], None) warm ∧
  ∃ s1,
    GetAllPosts cold 0 0 7 = Returned ([example_post], None) s1 ∧
    PostQueryService.calls (queryService s1)
      = PostQueryService.calls (queryService cold) ++ [Q_GetAllPosts 7] ∧
    ∀ (d : Database) (t3 t4 : Time),
      t3 ≤ Add 0 (ttl (cache cold)) →
      let s2 := with_queryService s1 (PostQueryService.with_db (queryService s1) d) in
      GetAllPosts s2 t3 t4 7 = Returned ([example_post], None) s2.
Proof.
  split.
  - apply (proj1 GetAllPosts_cache_aside warm 1 1 7 [example_post]).
    vm_compute. reflexivity.
  - apply (proj2 GetAllPosts_cache_aside cold 0 0 7 [example_post]).
    + vm_compute. reflexivity.
    + vm_compute. reflexivity.
Defined.

Lemma GetAllPosts_error_not_cached_witness :
  ∃ s1,
    GetAllPosts cold_down 0 0 7 = Returned ([], Some "failed to query posts") s1 ∧
    cache s1 = cache cold_down ∧
    PostQueryService.calls (queryService s1)
      = PostQueryService.calls (queryService cold_down) ++ [Q_GetAllPosts 7] ∧
    ∃ s2,
      GetAllPosts s1 1 1 7 = Returned ([], Some "failed to query posts") s2 ∧
      cache s2 = cache cold_down ∧
      PostQueryService.calls (queryService s2)
        = PostQueryService.calls (queryService cold_down)
            ++ [Q_GetAllPosts 7; Q_GetAllPosts 7].
Proof.
  apply (GetAllPosts_error_not_cached cold_down 0 0 1 1 7 [] "failed to query posts").
  - vm_compute. reflexivity.
  - vm_compute. reflexivity.
  - lia.
Defined.

(** Six requests a second apart: the sixth is turned away. *)
Lemma Allow_five_then_sixth_witness :
  Allow_seq NewRateLimiter client 5 (12 * Second)
    [0; 1 * Second; 2 * Second; 3 * Second; 4 * Second; 5 * Second] =
  [Some true; Some true; Some true; Some true; Some true; Some false].
Proof.
  apply (Allow_five_then_sixth NewRateLimiter client (12 * Second)
           0 (1 * Second) (2 * Second) (3 * Second) (4 * Second) (5 * Second)).
  - vm_compute. reflexivity.
  - vm_compute. reflexivity.
  - vm_compute. discriminate.
  - vm_compute. discriminate.
  - vm_compute. discriminate.
  - vm_compute. discriminate.
  - vm_compute. discriminate.
Defined.

(** C6, as stated, fails when the sixth call comes twelve seconds after the
    first: it is within the same minute and it is admitted. *)
Lemma Allow_sixth_admitted_within_minute :
  int_div (1 * Minute) 5 = Some (12 * Second) ∧
  12 * Second < 1 * Minute ∧
  Allow_seq NewRateLimiter client 5 (12 * Second) [0; 0; 0; 0; 0; 12 * Second] =
  [Some true; Some true; Some true; Some true; Some true; Some true].
Proof. split_and!; vm_compute; reflexivity. Qed.


Lemma Allow_rejection_leaves_state_witness :
  visitors spent !! client = Some {| tokens := 0; lastRefill := 0 |} ∧
  Allow spent (1 * Second) client 1 (1 * Minute) = Returned false spent ∧
  Allow spent (90 * Second) client 1 (1 * Minute) =
  Returned true (store spent client {| tokens := 0; lastRefill := 90 * Second |}).
Proof.
  assert (visitors spent !! client = Some {| tokens := 0; lastRefill := 0 |}) as Hv
    by (vm_compute; reflexivity).
  assert (∀ now n,
            tokensToAdd {| tokens := 0; lastRefill := 0 |} now (1 * Minute) = Some n →
            tokens {| tokens := 0; lastRefill := 0 |} + n ≤ max_int) as Hsum.
  { intros now n Hn. unfold tokensToAdd, int_div in Hn.
    rewrite decide_False in Hn by (vm_compute; discriminate).
    injection Hn as <-. simpl.
    pose proof (Sub_range now 0) as Hr.
    assert (min_int ≤ Sub now 0 ÷ (1 * Minute) ≤ max_int) as Hq.
    { revert Hr. generalize (Sub now 0). intros e Hr.
      unfold min_int, max_int, Minute, Second in *.
      change (2 ^ 63) with 9223372036854775808 in *.
      Z.to_euclidean_division_equations. lia. }
    rewrite wrap64_id by done. lia. }
  split; [done|]. split.
  - apply (proj2 (proj2 (Allow_rejection_leaves_state spent (1 * Second) client 1
                           (1 * Minute) {| tokens := 0; lastRefill := 0 |} Hv
                           ltac:(lia) ltac:(simpl; lia) (Hsum (1 * Second)))) 0).
    + vm_compute. reflexivity.
    + vm_compute. discriminate.
  - apply (proj1 (proj2 (Allow_rejection_leaves_state spent (90 * Second) client 1
                           (1 * Minute) {| tokens := 0; lastRefill := 0 |} Hv
                           ltac:(lia) ltac:(simpl; lia) (Hsum (90 * Second)))) 1).
    + vm_compute. reflexivity.
    + vm_compute. reflexivity.
Defined.

(** C8, as stated, fails under a limit of zero tokens: one second after the
    first call the refill runs, the count goes from -1 to 0 and
    [lastRefill] moves, and the call is rejected. *)
Lemma Allow_rejection_after_refill :
  visitors zero_limit !! client = Some {| tokens := -1; lastRefill := 0 |} ∧
  ∃ rl',
    Allow zero_limit (1 * Second) client 0 (1 * Second) = Returned false rl' ∧
    visitors rl' !! client = Some {| tokens := 0; lastRefill := 1 * Second |} ∧
    rl' ≠ zero_limit.
Proof.
  split; [vm_compute; reflexivity|].
  exists (state_of (Allow zero_limit (1 * Second) client 0 (1 * Second))).
  split_and!; [vm_compute; reflexivity|vm_compute; reflexivity|].
  intros E. apply (f_equal (λ rl, visitors rl !! client)) in E.
  vm_compute in E. discriminate.
Qed.

Lemma Get_cleanup_pass_witness :
  Get (cleanup_pass canonical_range one_entry (6 * Minute)) (7 * Minute) "categories_all"
  = Get one_entry (7 * Minute) "categories_all".
Proof.
  apply (Get_cleanup_pass canonical_range (λ m, canonical_range_keys m)
           one_entry (6 * Minute) (7 * Minute) "categories_all").
  vm_compute. discriminate.
Defined.

(** Invalidating user 5 removes both entries of user 555. *)
Lemma InvalidateUserCache_reaches_longer_ids_witness :
  HasPrefix (Sprintf_d 555) (Sprintf_d 5) = true ∧
  (Get (cache user555) 0 "posts_created_user_555").2 = true ∧
  (Get (cache user555) 0 "posts_liked_user_555").2 = true ∧
  items (cache (state_of (InvalidateUserCache canonical_range user555 5)))
    !! ("posts_created_user_" +:+ Sprintf_d 555) = None ∧
  items (cache (state_of (InvalidateUserCache canonical_range user555 5)))
    !! ("posts_liked_user_" +:+ Sprintf_d 555) = None.
Proof.
  split_and!; [vm_compute; reflexivity..| |];
    apply (InvalidateUserCache_reaches_longer_ids canonical_range
             (λ m, canonical_range_keys m) user555 _ 5 555);
    vm_compute; reflexivity.
Defined.

(** With the liked-posts entry of user 55 cached, [InvalidateUserCache(5)]
    panics in its second [Invalidate], on that very key, which is one byte
    shorter than "posts_created_user_5"; the third [Invalidate] never runs
    and the entry stays. *)
Lemma InvalidateUserCache_5_keeps_liked_55 :
  5 ≠ 55 ∧
  HasPrefix (Sprintf_d 55) (Sprintf_d 5) = true ∧
  InvalidateUserCache canonical_range liked55 5 = Panicked liked55 ∧
  Get (cache liked55) 0 "posts_liked_user_55" = (PostListItems [example_post], true).
Proof. split_and!; [done|vm_compute; reflexivity..]. Qed.

(** * Further properties of the code *)

(** ** QueryCache *)

(** X1: what [Get] returns after a [Set]: under the key just set, the value
    stored until [ttl] after the time of the [Set] and a miss from then on;
    under any other key, what it returned before. *)
Theorem Get_after_Set (c : QueryCache) (t_set now : Time) (key key' : string) (d : any) :
  Get (Set_ c t_set key d) now key' =
  if decide (key' = key)
  then if decide (now ≤ Add t_set (ttl c)) then (d, true) else (nil_any, false)
  else Get c now key'.
Proof.
  destruct (decide (key' = key)) as [->|Hne].
  - destruct (decide (now ≤ Add t_set (ttl c))) as [Hle|Hgt].
    + by apply Get_Set_eq.
    + unfold Get, Set_, After. simpl. rewrite lookup_insert_eq. simpl.
      rewrite bool_decide_eq_true_2; [done|lia].
  - by apply Get_Set_ne.
Qed.

Section MoreQueryCacheProperties.

Variable range : gmap string cacheItem → list string.
Hypothesis range_keys : ∀ m, range m ≡ₚ map_keys m.

Lemma Invalidate_returns_lookup (c : QueryCache) (keyPrefix : string) :
  (∀ key, is_Some (items c !! key) → (len keyPrefix ≤ len key)%nat) →
  ∃ c', Invalidate range c keyPrefix = Returned tt c' ∧
        ttl c' = ttl c ∧
        ∀ key, items c' !! key =
               if HasPrefix key keyPrefix then None else items c !! key.
Proof.
  intros Hlen.
  rewrite (Invalidate_removes_exactly range range_keys c keyPrefix Hlen).
  eexists. split_and!; [done|done|]. intros key. simpl.
  rewrite map_lookup_filter.
  destruct (HasPrefix key keyPrefix) eqn:Hp;
    destruct (items c !! key) as [item|]; simpl; try done.
  - rewrite option_guard_False; [done|]. simpl. congruence.
  - rewrite option_guard_True; done.
Qed.

(** X2: when no stored key is shorter than the prefix, [Invalidate]
    returns and keeps the TTL; from then on [Get] misses under every key
    that starts with the prefix and returns what it returned before under
    every other key. *)
Theorem Invalidate_exact (c : QueryCache) (keyPrefix : string) :
  (∀ key, is_Some (items c !! key) → (len keyPrefix ≤ len key)%nat) →
  ∃ c', Invalidate range c keyPrefix = Returned tt c' ∧
        ttl c' = ttl c ∧
        ∀ now key, Get c' now key =
                   if HasPrefix key keyPrefix then (nil_any, false)
                   else Get c now key.
Proof.
  intros Hlen.
  destruct (Invalidate_returns_lookup c keyPrefix Hlen) as (c' & E & Httl & Hl).
  exists c'. split_and!; [done|done|]. intros now key. unfold Get. rewrite Hl.
  by destruct (HasPrefix key keyPrefix).
Qed.

(** X3: [Invalidate] is idempotent: after a call that returned, the same
    call returns again and changes nothing. *)
Theorem Invalidate_idempotent (c c' : QueryCache) (keyPrefix : string) :
  Invalidate range c keyPrefix = Returned tt c' →
  Invalidate range c' keyPrefix = Returned tt c'.
Proof.
  intros Hret.
  assert (∀ key, is_Some (items c' !! key) → (len keyPrefix ≤ len key)%nat) as Hlen.
  { intros key. rewrite (Invalidate_lookup range range_keys c c' _ _ Hret).
    destruct (HasPrefix key keyPrefix) eqn:Hp; [by intros [? ?]|].
    intros Hk.
    assert (returns (Invalidate range c keyPrefix) = true) as Hr by (by rewrite Hret).
    by apply (proj1 (Invalidate_returns_iff range range_keys c keyPrefix) Hr). }
  rewrite (Invalidate_removes_exactly range range_keys c' keyPrefix Hlen).
  f_equal. destruct c' as [m' ttl']. unfold with_items. simpl. f_equal.
  apply map_eq. intros key. rewrite map_lookup_filter.
  pose proof (Invalidate_lookup range range_keys c _ keyPrefix key Hret) as Hl.
  simpl in Hl.
  destruct (m' !! key) as [item|] eqn:Hk; simpl; [|done].
  rewrite option_guard_True; [done|]. simpl.
  destruct (HasPrefix key keyPrefix); [done|done].
Qed.

(** X4: a pass of [cleanup] deletes exactly the entries whose [expiresAt]
    is strictly before the tick, whatever the iteration order, and keeps
    the TTL. *)
Theorem cleanup_pass_exact (c : QueryCache) (now : Time) :
  cleanup_pass range c now =
  with_items c (filter (λ kv, ¬ expiresAt kv.2 < now) (items c)).
Proof.
  unfold cleanup_pass, with_items. f_equal. apply map_eq. intros key.
  pose proof (cleanup_pass_lookup range range_keys c now key) as Hl.
  unfold cleanup_pass in Hl. simpl in Hl. rewrite Hl, map_lookup_filter.
  destruct (items c !! key) as [item|]; simpl; [|done].
  case_decide.
  - rewrite option_guard_False; [done|]. simpl. tauto.
  - rewrite option_guard_True; done.
Qed.

End MoreQueryCacheProperties.

(** ** The read methods of CachedPostQueryService *)

Import Service.

Lemma read_unfold (q : QueryCall) (s : CachedPostQueryService.t) (t_get t_set : Time) :
  read q s t_get t_set = scheme q s t_get t_set.
Proof.
  destruct q; unfold scheme, read, getOrCompute, cacheKey, answer, box;
    [unfold GetAllPosts, PostQueryService.GetAllPosts
    |unfold GetPostByID, PostQueryService.GetPostByID
    |unfold GetPostsByCategory, PostQueryService.GetPostsByCategory
    |unfold GetUserCreatedPosts, PostQueryService.GetUserCreatedPosts
    |unfold GetUserLikedPosts, PostQueryService.GetUserLikedPosts
    |unfold GetAllCategories, PostQueryService.GetAllCategories];
    (destruct (Get (cache s) t_get _) as [cached [|]];
     [by destruct cached|]);
    match goal with
    | |- context [let '(_, _) := ?x in _] => destruct x as [v [e|]]
    end; done.
Qed.

(** X5: each of the six read methods is the cache-aside scheme run with
    its own key, its own type assertion and its own query: it looks up the
    key it later stores under, and it caches what it asked the database
    for. *)
Theorem read_methods_are_getOrCompute
    (s : CachedPostQueryService.t) (t_get t_set : Time) :
  (∀ userID, box PostListItems (GetAllPosts s t_get t_set userID)
             = scheme (Q_GetAllPosts userID) s t_get t_set) ∧
  (∀ postID userID, box PostDetailPtr (GetPostByID s t_get t_set postID userID)
                    = scheme (Q_GetPostByID postID userID) s t_get t_set) ∧
  (∀ categoryID userID,
     box PostListItems (GetPostsByCategory s t_get t_set categoryID userID)
     = scheme (Q_GetPostsByCategory categoryID userID) s t_get t_set) ∧
  (∀ userID, box PostListItems (GetUserCreatedPosts s t_get t_set userID)
             = scheme (Q_GetUserCreatedPosts userID) s t_get t_set) ∧
  (∀ userID, box PostListItems (GetUserLikedPosts s t_get t_set userID)
             = scheme (Q_GetUserLikedPosts userID) s t_get t_set) ∧
  box CategorySummaries (GetAllCategories s t_get t_set)
  = scheme Q_GetAllCategories s t_get t_set.
Proof.
  split_and!; intros;
    match goal with |- _ = scheme ?q _ _ _ => exact (read_unfold q s t_get t_set) end.
Qed.

Lemma answer_asserted (q : QueryCall) (d : Database) :
  assertion q (answer q d).1 = true.
Proof.
  destruct q; simpl;
    match goal with |- context [let '(_, _) := ?x in _] => by destruct x end.
Qed.

Lemma decimal_pretty_N_go (x : N) (s : string) :
  decimal s = true → decimal (pretty_N_go x s) = true.
Proof.
  revert s. induction (N.lt_wf_0 x) as [x _ IH]. intros s Hs.
  assert (x = 0 ∨ 0 < x)%N as [->|Hx] by lia.
  - by rewrite pretty_N_go_0.
  - rewrite pretty_N_go_step by done. apply IH.
    + by apply N.div_lt.
    + simpl. rewrite Hs, andb_true_r.
      unfold pretty_N_char. by repeat case_match.
Qed.

(** [%d] prints digits and at most a sign. *)
Lemma decimal_Sprintf_d (n : Z) : decimal (Sprintf_d n) = true.
Proof.
  assert (∀ p : positive, decimal (pretty p) = true) as Hpos.
  { intros p. unfold pretty, pretty_positive, pretty, pretty_N.
    case_decide; [done|]. by apply decimal_pretty_N_go. }
  unfold Sprintf_d, pretty, pretty_Z. destruct n as [|p|p]; [done|apply Hpos|].
  simpl. apply Hpos.
Qed.

(** Two decimal numbers followed by "_" and more are equal when the whole
    strings are. *)
Lemma decimal_sep (a a' r r' : string) :
  decimal a = true → decimal a' = true →
  a +:+ String "_" r = a' +:+ String "_" r' →
  a = a' ∧ r = r'.
Proof.
  revert a'. induction a as [|x a IH]; intros [|x' a']; simpl.
  - by intros _ _ [= ->].
  - intros _ [Hx _]%andb_prop [= <- _]. done.
  - intros [Hx _]%andb_prop _ [= -> _]. done.
  - intros [_ Ha]%andb_prop [_ Ha']%andb_prop [= -> Hr].
    destruct (IH a' Ha Ha' Hr) as [-> ->]. done.
Qed.

Lemma cacheKey_inj (q1 q2 : QueryCall) :
  cacheKey q1 = cacheKey q2 → q1 = q2.
Proof.
  assert (∀ a b : Z, Sprintf_d a = Sprintf_d b → a = b) as Hinj
    by (intros a b; apply pretty_Z_inj).
  assert (∀ a b a' b' : Z,
           Sprintf_d a +:+ String "_" ("user_" +:+ Sprintf_d b) =
           Sprintf_d a' +:+ String "_" ("user_" +:+ Sprintf_d b') →
           a = a' ∧ b = b') as Hinj2.
  { intros a b a' b' H.
    apply decimal_sep in H as [Ha [= Hb]]; try apply decimal_Sprintf_d.
    split; by apply Hinj. }
  destruct q1, q2; cbn [cacheKey String.append]; intros H;
    try done;
    try (by injection H);
    try (injection H as H; apply Hinj in H; by subst);
    try (injection H as H; apply Hinj2 in H as [-> ->]; done).
Qed.

(** X6: the cache keys of two different queries differ, be the difference
    in the method or in an argument: no two queries share a cache entry. *)
Theorem cacheKey_distinct (q1 q2 : QueryCall) :
  q1 ≠ q2 → cacheKey q1 ≠ cacheKey q2.
Proof. intros Hne Hk. by apply Hne, cacheKey_inj. Qed.

Lemma cacheKey_len (q : QueryCall) : (11 ≤ len (cacheKey q))%nat.
Proof. destruct q; unfold cacheKey; rewrite ?len_append; simpl; lia. Qed.

(** Post entries are those under "posts_" or "post_"; the categories entry
    is under neither. *)
Lemma cacheKey_post_prefix (q : QueryCall) :
  HasPrefix (cacheKey q) "posts_" || HasPrefix (cacheKey q) "post_" =
  match q with Q_GetAllCategories => false | _ => true end.
Proof.
  destruct q; try reflexivity.
  unfold cacheKey.
  rewrite (HasPrefix_app "post_" _ "" (HasPrefix_empty _)). apply orb_true_r.
Qed.

Lemma cacheKey_not_posts_and_post (q : QueryCall) :
  HasPrefix (cacheKey q) "posts_" = true → HasPrefix (cacheKey q) "post_" = false.
Proof. by destruct q. Qed.

Lemma cacheKey_no_user_prefix (q : QueryCall) (userID : Z) :
  HasPrefix (cacheKey q) ("user_" +:+ Sprintf_d userID) = false.
Proof. by destruct q. Qed.

Lemma Invalidate_state_lookup (range : gmap string cacheItem → list string)
    (c : QueryCache) (keyPrefix key : string) (item : cacheItem) :
  items (state_of (Invalidate range c keyPrefix)) !! key = Some item →
  items c !! key = Some item.
Proof.
  rewrite Invalidate_state. simpl.
  destruct (Invalidate_loop_shrinks keyPrefix (range (items c)) (items c) key)
    as [->| ->]; done.
Qed.

Lemma and_then_state_lookup (range : gmap string cacheItem → list string)
    (o : outcome unit QueryCache) (k : QueryCache → outcome unit QueryCache)
    (c : QueryCache) (key : string) (item : cacheItem) :
  (items (state_of o) !! key = Some item → items c !! key = Some item) →
  (∀ c', items (state_of (k c')) !! key = Some item → items c' !! key = Some item) →
  items (state_of (and_then o k)) !! key = Some item →
  items c !! key = Some item.
Proof. destruct o as [[] c'|c']; simpl; eauto. Qed.

Lemma lift_cache (s : CachedPostQueryService.t) (o : outcome unit QueryCache) :
  cache (state_of (lift s o)) = state_of o ∧
  queryService (state_of (lift s o)) = queryService s.
Proof. by destruct o. Qed.

Section ServiceRunProperties.

Variable range : gmap string cacheItem → list string.
Hypothesis range_keys : ∀ m, range m ≡ₚ map_keys m.

Lemma stored_by_reads_subset (c c' : QueryCache) :
  (∀ key item, items c' !! key = Some item → items c !! key = Some item) →
  stored_by_reads c → stored_by_reads c'.
Proof. intros Hsub Hc key item Hk. apply (Hc key item). by apply Hsub. Qed.

Lemma step_stored_by_reads (s : CachedPostQueryService.t) (o : op) :
  stored_by_reads (cache s) → stored_by_reads (cache (step range s o)).
Proof.
  intros Hs. destruct o as [q t_get t_set| |userID|tick|d]; cbn [step].
  - rewrite read_unfold. unfold scheme, getOrCompute.
    destruct (Get (cache s) t_get (cacheKey q)) as [cached [|]].
    + by destruct (assertion q cached).
    + pose proof (answer_asserted q (PostQueryService.db (queryService s))) as Ha.
      destruct (answer q (PostQueryService.db (queryService s))) as [v [e|]];
        [done|].
      simpl in Ha. unfold stored_by_reads.
      cbn [state_of cache Set_ with_items items]. intros key item.
      destruct (decide (cacheKey q = key)) as [<-|Hne].
      * rewrite lookup_insert_eq. intros [= <-]. by exists q.
      * rewrite lookup_insert_ne by done. apply Hs.
  - unfold InvalidatePostCache.
    rewrite (proj1 (lift_cache s _)).
    eapply stored_by_reads_subset; [|exact Hs]. intros key item.
    apply (and_then_state_lookup range); [apply Invalidate_state_lookup|].
    intros c'. apply Invalidate_state_lookup.
  - unfold InvalidateUserCache.
    rewrite (proj1 (lift_cache s _)).
    eapply stored_by_reads_subset; [|exact Hs]. intros key item.
    apply (and_then_state_lookup range); [apply Invalidate_state_lookup|].
    intros c'.
    apply (and_then_state_lookup range); [apply Invalidate_state_lookup|].
    intros c''. apply Invalidate_state_lookup.
  - eapply stored_by_reads_subset; [|exact Hs]. intros key item. simpl.
    rewrite cleanup_loop_lookup. destruct (items (cache s) !! key); [|done].
    by case_decide.
  - done.
Qed.

Lemma run_stored_by_reads (s : CachedPostQueryService.t) (os : list op) :
  stored_by_reads (cache s) → stored_by_reads (cache (run range s os)).
Proof.
  unfold run. revert s. induction os as [|o os IH]; intros s Hs; simpl; [done|].
  apply IH. by apply step_stored_by_reads.
Qed.

Lemma reachable_stored_by_reads (d : Database) (cacheTTL : Duration) (os : list op) :
  stored_by_reads (cache (run range (NewCachedPostQueryService d cacheTTL) os)).
Proof. apply run_stored_by_reads. intros key item Hk. by simpl in Hk. Qed.

(** X7: in every state the service reaches from
    [NewCachedPostQueryService], through reads, invalidations (also ones
    that panic), cleanup passes and writes to the database, no read method
    panics: the value found under a key always has the type the method
    asserts. *)
Theorem reads_never_panic (d : Database) (cacheTTL : Duration) (os : list op)
    (q : QueryCall) (t_get t_set : Time) :
  returns (read q (run range (NewCachedPostQueryService d cacheTTL) os) t_get t_set)
  = true.
Proof.
  pose proof (reachable_stored_by_reads d cacheTTL os) as Hs.
  rewrite read_unfold. unfold scheme, getOrCompute.
  set (s := run range (NewCachedPostQueryService d cacheTTL) os) in *.
  destruct (Get (cache s) t_get (cacheKey q)) as [cached [|]] eqn:Hg.
  - apply Get_found in Hg as (item & Hk & _ & ->).
    destruct (Hs _ _ Hk) as (q' & Hq & Ha).
    apply cacheKey_inj in Hq as <-. by rewrite Ha.
  - destruct (answer q (PostQueryService.db (queryService s))) as [v [e|]]; done.
Qed.

Lemma InvalidatePostCache_reachable_lookup
    (d : Database) (cacheTTL : Duration) (os : list op) :
  let s := run range (NewCachedPostQueryService d cacheTTL) os in
  ∃ s', InvalidatePostCache range s = Returned tt s' ∧
        queryService s' = queryService s ∧
        (∀ key, items (cache s') !! key =
                if decide (key = "categories_all") then items (cache s) !! key
                else None).
Proof.
  intros s. pose proof (reachable_stored_by_reads d cacheTTL os) as Hs.
  fold s in Hs. unfold InvalidatePostCache.
  assert (∀ key, is_Some (items (cache s) !! key) → (6 ≤ len key)%nat) as Hlen.
  { intros key [item Hk]. destruct (Hs _ _ Hk) as (q & -> & _).
    pose proof (cacheKey_len q). lia. }
  destruct (Invalidate_returns_lookup range range_keys (cache s) "posts_" Hlen)
    as (c1 & -> & _ & H1).
  assert (∀ key, is_Some (items c1 !! key) → (len "post_" ≤ len key)%nat) as Hlen1.
  { intros key. rewrite H1. destruct (HasPrefix key "posts_"); [by intros [? ?]|].
    intros Hk. specialize (Hlen key Hk). simpl. lia. }
  destruct (Invalidate_returns_lookup range range_keys c1 "post_" Hlen1) as (c2 & E2 & _ & H2).
  cbn [and_then]. rewrite E2. cbn [lift]. eexists. split_and!; [done|done|].
  intros key. cbn [cache with_cache]. rewrite H2, H1.
  destruct (items (cache s) !! key) as [item|] eqn:Hk.
  - destruct (Hs _ _ Hk) as (q & -> & _).
    pose proof (cacheKey_post_prefix q) as Hp.
    destruct q;
      (case_decide;
       [done
       |destruct (HasPrefix _ "post_");
        [done|destruct (HasPrefix _ "posts_"); done]]).
  - by repeat case_match.
Qed.

(** X8: in every such state [InvalidatePostCache] returns; it leaves the
    query service alone, [Get] then misses under the key of every post
    query, and returns what it returned before under "categories_all". *)
Theorem InvalidatePostCache_on_reachable
    (d : Database) (cacheTTL : Duration) (os : list op) :
  let s := run range (NewCachedPostQueryService d cacheTTL) os in
  ∃ s', InvalidatePostCache range s = Returned tt s' ∧
        queryService s' = queryService s ∧
        (∀ q now, q ≠ Q_GetAllCategories →
                  Get (cache s') now (cacheKey q) = (nil_any, false)) ∧
        (∀ now, Get (cache s') now (cacheKey Q_GetAllCategories) =
                Get (cache s) now (cacheKey Q_GetAllCategories)).
Proof.
  intros s.
  destruct (InvalidatePostCache_reachable_lookup d cacheTTL os) as (s' & E & Hq & Hl).
  exists s'. split_and!; [done|done| |].
  - intros q now Hne. unfold Get. rewrite Hl.
    rewrite decide_False; [done|]. by destruct q.
  - intros now. unfold Get. by rewrite Hl.
Qed.

(** X9: after [InvalidatePostCache] every post query goes to the database:
    the read returns what the database answers now and logs one call. *)
Theorem read_after_InvalidatePostCache
    (d : Database) (cacheTTL : Duration) (os : list op)
    (s' : CachedPostQueryService.t) (q : QueryCall) (t_get t_set : Time) :
  InvalidatePostCache range (run range (NewCachedPostQueryService d cacheTTL) os)
    = Returned tt s' →
  q ≠ Q_GetAllCategories →
  ∃ s'',
    read q s' t_get t_set =
      Returned
        (match answer q (PostQueryService.db (queryService s')) with
         | (v, None) => (v, None)
         | (_, Some e) => (zero q, Some e)
         end) s'' ∧
    PostQueryService.calls (queryService s'') =
      PostQueryService.calls (queryService s') ++ [q].
Proof.
  intros Hret Hq.
  destruct (InvalidatePostCache_reachable_lookup d cacheTTL os) as (s1 & E & _ & Hl).
  rewrite E in Hret. injection Hret as <-.
  rewrite read_unfold. unfold scheme, getOrCompute, Get.
  rewrite Hl. rewrite decide_False by (by destruct q).
  destruct (answer q (PostQueryService.db (queryService s1))) as [v [e|]];
    eexists; split; done.
Qed.

(** X10: the first call of [InvalidateUserCache], [Invalidate] with the
    prefix "user_" and the id, removes nothing in any state the service
    reaches: no read method stores a key that starts with "user_". *)
Theorem Invalidate_user_prefix_removes_nothing
    (d : Database) (cacheTTL : Duration) (os : list op) (userID : Z) :
  let s := run range (NewCachedPostQueryService d cacheTTL) os in
  state_of (Invalidate range (cache s) ("user_" +:+ Sprintf_d userID)) = cache s.
Proof.
  intros s. pose proof (reachable_stored_by_reads d cacheTTL os) as Hs.
  fold s in Hs. rewrite Invalidate_state.
  destruct (cache s) as [m ttl0] eqn:Ec. unfold with_items. simpl in *. f_equal.
  apply map_eq. intros key.
  destruct (m !! key) as [item|] eqn:Hk.
  - destruct (Hs _ _ Hk) as (q & -> & _).
    rewrite Invalidate_loop_frame; [done|apply cacheKey_no_user_prefix].
  - destruct (Invalidate_loop_shrinks ("user_" +:+ Sprintf_d userID) (range m) m key)
      as [->| ->]; done.
Qed.

End ServiceRunProperties.

(** ** RateLimiter *)

(** What [Allow] answers and does to the visitor of [key] depends on that
    visitor alone. *)
Lemma Allow_ext (rl1 rl2 : RateLimiter.t) now key maxTokens refillRate :
  visitors rl1 !! key = visitors rl2 !! key →
  match Allow rl1 now key maxTokens refillRate,
        Allow rl2 now key maxTokens refillRate with
  | Returned b1 rl1', Returned b2 rl2' =>
      b1 = b2 ∧ visitors rl1' !! key = visitors rl2' !! key
  | Panicked rl1', Panicked rl2' => visitors rl1' !! key = visitors rl2' !! key
  | _, _ => False
  end.
Proof.
  intros E. unfold Allow. rewrite <- E.
  destruct (visitors rl1 !! key) as [v|] eqn:E1.
  - destruct (tokensToAdd v now refillRate) as [n|]; [|congruence].
    case_decide; by rewrite !store_lookup_eq.
  - by rewrite !store_lookup_eq.
Qed.

Lemma Allow_seq_ext (rl1 rl2 : RateLimiter.t) key maxTokens refillRate times :
  visitors rl1 !! key = visitors rl2 !! key →
  Allow_seq rl1 key maxTokens refillRate times =
  Allow_seq rl2 key maxTokens refillRate times.
Proof.
  revert rl1 rl2. induction times as [|now times IH]; intros rl1 rl2 E; [done|].
  cbn [Allow_seq].
  pose proof (Allow_ext rl1 rl2 now key maxTokens refillRate E) as H.
  destruct (Allow rl1 now key maxTokens refillRate) as [b1 rl1'|rl1'],
           (Allow rl2 now key maxTokens refillRate) as [b2 rl2'|rl2']; try done.
  - destruct H as [-> H]. f_equal. by apply IH.
  - f_equal. by apply IH.
Qed.

Lemma Allow_other_key (rl : RateLimiter.t) now key key' maxTokens refillRate :
  key ≠ key' →
  visitors (state_of (Allow rl now key maxTokens refillRate)) !! key' =
  visitors rl !! key'.
Proof.
  intros Hne. unfold Allow. destruct (visitors rl !! key) as [v|].
  - destruct (tokensToAdd v now refillRate) as [n|]; [|done].
    case_decide; simpl; by rewrite lookup_insert_ne.
  - simpl. by rewrite lookup_insert_ne.
Qed.

(** X11: identities do not share quota: a call of [Allow] for one key, under
    whatever limit, changes neither the visitor of another key nor any
    answer that key gets afterwards. *)
Theorem Allow_independent_of_other_keys
    (rl : RateLimiter.t) (now : Time) (key key' : string)
    (maxTokens maxTokens' : Z) (refillRate refillRate' : Duration)
    (times : list Time) :
  key ≠ key' →
  visitors (state_of (Allow rl now key maxTokens refillRate)) !! key' =
    visitors rl !! key' ∧
  Allow_seq (state_of (Allow rl now key maxTokens refillRate))
    key' maxTokens' refillRate' times =
  Allow_seq rl key' maxTokens' refillRate' times.
Proof.
  intros Hne. split; [by apply Allow_other_key|].
  apply Allow_seq_ext. by apply Allow_other_key.
Qed.

(** No token comes back before a whole refill interval has passed. *)
Lemma tokensToAdd_within_interval (v : visitor) (now : Time) (refillRate : Duration) :
  0 < refillRate → lastRefill v ≤ now < lastRefill v + refillRate →
  tokensToAdd v now refillRate = Some 0.
Proof.
  intros Hr Hnow. unfold tokensToAdd, int_div.
  rewrite decide_False by lia. f_equal.
  assert (0 ≤ Sub now (lastRefill v) < refillRate) as He.
  { unfold Sub, min_int, max_int, Time in *.
    change (2 ^ 63) with 9223372036854775808. repeat case_decide; lia. }
  by rewrite Z.quot_small.
Qed.

Lemma Allow_seq_within_interval (rl : RateLimiter.t) (key : string) (v : visitor)
    (maxTokens : Z) (refillRate : Duration) (times : list Time) :
  visitors rl !! key = Some v →
  0 ≤ tokens v ≤ max_int →
  0 < refillRate →
  Forall (λ now, lastRefill v ≤ now < lastRefill v + refillRate) times →
  Allow_seq rl key maxTokens refillRate times =
  (λ i : nat, Some (bool_decide (Z.of_nat i < tokens v))) <$> seq 0 (length times).
Proof.
  intros Hv Htok Hr Htimes. revert rl v Hv Htok Htimes.
  induction times as [|now times IH]; intros rl v Hv Htok Htimes; [done|].
  apply Forall_cons in Htimes as [Hnow Htimes].
  cbn [Allow_seq length seq fmap list_fmap]. unfold Allow. rewrite Hv.
  rewrite (tokensToAdd_within_interval v now refillRate Hr Hnow).
  unfold refill. destruct (decide (0 < 0)) as [?|_]; [lia|].
  destruct (decide (0 < tokens v)) as [Hpos|Hpos].
  - rewrite bool_decide_eq_true_2 by lia. f_equal.
    rewrite (IH _ {| tokens := int_sub (tokens v) 1; lastRefill := lastRefill v |});
      [|apply store_lookup_eq
       |simpl; unfold int_sub; rewrite wrap64_id;
        unfold min_int, max_int in *; lia
       |done].
    rewrite <- fmap_S_seq, <- list_fmap_compose. apply list_fmap_ext.
    intros _ i _. simpl. f_equal. apply bool_decide_ext.
    unfold int_sub. rewrite wrap64_id by (unfold min_int, max_int in *; lia). lia.
  - rewrite bool_decide_eq_false_2 by lia. f_equal.
    rewrite (IH _ v); [|apply store_lookup_eq|done|done].
    rewrite <- fmap_S_seq, <- list_fmap_compose. apply list_fmap_ext.
    intros _ i _. simpl. f_equal. apply bool_decide_ext. lia.
Qed.

(** X12: a new identity gets a burst of exactly [maxTokens] requests: of the
    calls made less than one refill interval after the first, the first
    [maxTokens] are admitted and all later ones are rejected. *)
Theorem Allow_burst (rl : RateLimiter.t) (key : string) (maxTokens : Z)
    (refillRate : Duration) (t1 : Time) (times : list Time) :
  visitors rl !! key = None →
  1 ≤ maxTokens ≤ max_int →
  0 < refillRate →
  Forall (λ now, t1 ≤ now < t1 + refillRate) times →
  Allow_seq rl key maxTokens refillRate (t1 :: times) =
  (λ i : nat, Some (bool_decide (Z.of_nat i < maxTokens)))
    <$> seq 0 (S (length times)).
Proof.
  intros Hnew HM Hr Htimes.
  assert (int_sub maxTokens 1 = maxTokens - 1) as Hsub
    by (unfold int_sub; apply wrap64_id; unfold min_int, max_int in *; lia).
  cbn [Allow_seq length seq fmap list_fmap]. rewrite (Allow_new _ _ _ _ _ Hnew).
  rewrite bool_decide_eq_true_2 by lia. f_equal.
  rewrite (Allow_seq_within_interval _ key
             {| tokens := int_sub maxTokens 1; lastRefill := t1 |});
    [|apply store_lookup_eq|simpl; lia|done|done].
  rewrite <- fmap_S_seq, <- list_fmap_compose. apply list_fmap_ext.
  intros _ i _. simpl. f_equal. apply bool_decide_ext. lia.
Qed.

Lemma Sub_lower_bound (t u : Time) (d : Duration) :
  0 ≤ d → d < Sub t u → d < t - u.
Proof. unfold Sub, min_int, max_int. repeat case_decide; lia. Qed.

Lemma tokensToAdd_exact (v : visitor) (now : Time) (refillRate : Duration) :
  0 ≤ lastRefill v ≤ now → now < 2 ^ 62 → 0 < refillRate →
  tokensToAdd v now refillRate = Some ((now - lastRefill v) `div` refillRate) ∧
  0 ≤ (now - lastRefill v) `div` refillRate ≤ now - lastRefill v.
Proof.
  intros Hlr Hnow Hr. change (2 ^ 62) with 4611686018427387904 in *.
  unfold Time, Duration in *.
  assert (0 ≤ (now - lastRefill v) `div` refillRate ≤ now - lastRefill v) as Hq.
  { split; [apply Z.div_pos; lia|].
    apply Z.div_le_upper_bound; [lia|]. nia. }
  split; [|done].
  unfold tokensToAdd, int_div. rewrite decide_False by lia. f_equal.
  rewrite Sub_exact
    by (unfold min_int, max_int; change (2 ^ 63) with 9223372036854775808; lia).
  rewrite Z.quot_div_nonneg by lia.
  apply wrap64_id. unfold min_int, max_int.
  change (2 ^ 63) with 9223372036854775808. lia.
Qed.

(** A whole refill interval after its last refill a visitor is admitted,
    whatever it had left: the call adds one token per interval elapsed,
    caps the count at [maxTokens], takes one token and restarts the
    interval at [now]. *)
Lemma Allow_after_interval (rl : RateLimiter.t) (now : Time) (key : string)
    (maxTokens : Z) (refillRate : Duration) (v : visitor) :
  visitors rl !! key = Some v →
  1 ≤ maxTokens ≤ 2 ^ 62 →
  0 ≤ tokens v ≤ 2 ^ 62 →
  0 ≤ lastRefill v → now < 2 ^ 62 →
  0 < refillRate ≤ now - lastRefill v →
  Allow rl now key maxTokens refillRate =
  Returned true
    (store rl key
       {| tokens :=
            Z.min (tokens v + (now - lastRefill v) `div` refillRate) maxTokens - 1;
          lastRefill := now |}).
Proof.
  intros Hv HM Htok Hlr Hnow Hr. unfold Time, Duration in *.
  destruct (tokensToAdd_exact v now refillRate) as [Ht Hq]; [lia|done|lia|].
  assert (1 ≤ (now - lastRefill v) `div` refillRate) as Hq1.
  { apply Z.div_le_lower_bound; lia. }
  change (2 ^ 62) with 4611686018427387904 in *.
  assert (∀ x, - 2 ^ 63 ≤ x < 2 ^ 63 → wrap64 x = x) as Hw.
  { intros x Hx. apply wrap64_id. unfold min_int, max_int. lia. }
  change (2 ^ 63) with 9223372036854775808 in *.
  unfold Time, Duration in *.
  unfold Allow. rewrite Hv, Ht. unfold refill.
  destruct (decide (0 < (now - lastRefill v) `div` refillRate)) as [_|?]; [|lia].
  cbn [tokens lastRefill].
  unfold int_add, int_sub, RateLimiter.min. rewrite Hw by lia.
  assert ((if decide (tokens v + (now - lastRefill v) `div` refillRate < maxTokens)
           then tokens v + (now - lastRefill v) `div` refillRate else maxTokens)
          = Z.min (tokens v + (now - lastRefill v) `div` refillRate) maxTokens)
    as -> by (case_decide; lia).
  rewrite decide_True by lia. rewrite Hw by lia. done.
Qed.

(** X13: an identity that has used up its tokens is admitted again exactly
    when a whole refill interval has passed since its last refill, and it
    then holds as many tokens as intervals have passed, capped at
    [maxTokens], less the one it takes. *)
Theorem Allow_drained_admitted_iff (rl : RateLimiter.t) (now : Time) (key : string)
    (maxTokens : Z) (refillRate : Duration) (v : visitor) :
  visitors rl !! key = Some v →
  tokens v = 0 →
  1 ≤ maxTokens ≤ 2 ^ 62 →
  0 ≤ lastRefill v ≤ now → now < 2 ^ 62 →
  0 < refillRate →
  Allow rl now key maxTokens refillRate =
  if decide (refillRate ≤ now - lastRefill v)
  then Returned true
         (store rl key
            {| tokens := Z.min ((now - lastRefill v) `div` refillRate) maxTokens - 1;
               lastRefill := now |})
  else Returned false rl.
Proof.
  intros Hv Htok HM Hlr Hnow Hr. unfold Time, Duration in *.
  case_decide as Hint.
  - rewrite (Allow_after_interval rl now key maxTokens refillRate v Hv);
      unfold Time, Duration in *; rewrite ?Htok; try done; try lia.
  - unfold Allow. rewrite Hv.
    rewrite (tokensToAdd_within_interval v now refillRate) by lia.
    unfold refill. destruct (decide (0 < 0)) as [?|_]; [lia|].
    rewrite decide_False by lia. f_equal. by apply store_id.
Qed.

Lemma cleanupLoop_loop_lookup_full (now : Time) keys (m : gmap string visitor) key :
  cleanupLoop_loop now keys m !! key =
  match m !! key with
  | Some v =>
      if decide (key ∈ keys ∧ 1 * Hour < Sub now (lastRefill v)) then None
      else Some v
  | None => None
  end.
Proof.
  revert m. induction keys as [|k keys IH]; intros m; cbn [cleanupLoop_loop].
  - destruct (m !! key); [|done]. rewrite decide_False; [done|].
    intros [H _]. by apply elem_of_nil in H.
  - assert (∀ m0, m0 !! key = m !! key →
        (∀ v, m !! key = Some v → 1 * Hour < Sub now (lastRefill v) → key ≠ k) →
        cleanupLoop_loop now keys m0 !! key =
        match m !! key with
        | Some v =>
            if decide (key ∈ k :: keys ∧ 1 * Hour < Sub now (lastRefill v))
            then None else Some v
        | None => None
        end) as Hsame.
    { intros m0 E Hk. rewrite IH, E. destruct (m !! key) as [v|] eqn:Ei; [|done].
      destruct (decide (key ∈ keys ∧ 1 * Hour < Sub now (lastRefill v)))
        as [[H1 H2]|Hn];
        destruct (decide (key ∈ k :: keys ∧ 1 * Hour < Sub now (lastRefill v)))
          as [[H3 H4]|Hn']; try done.
      - exfalso. apply Hn'. split; [by right|done].
      - exfalso. apply elem_of_cons in H3 as [->|H3].
        + by apply (Hk v).
        + by apply Hn. }
    destruct (m !! k) as [vk|] eqn:Ek.
    + destruct (decide (1 * Hour < Sub now (lastRefill vk))) as [Hexp|Hexp].
      * destruct (decide (key = k)) as [->|Hne].
        -- rewrite IH, lookup_delete_eq, Ek.
           rewrite decide_True; [done|]. split; [by left|done].
        -- rewrite IH, lookup_delete_ne by done.
           destruct (m !! key) as [v|]; [|done].
           destruct (decide (key ∈ keys ∧ 1 * Hour < Sub now (lastRefill v)))
             as [[H1 H2]|Hn];
             destruct (decide (key ∈ k :: keys ∧ 1 * Hour < Sub now (lastRefill v)))
               as [[H3 H4]|Hn']; try done.
           ++ exfalso. apply Hn'. split; [by right|done].
           ++ exfalso. apply elem_of_cons in H3 as [->|H3]; [done|by apply Hn].
      * apply Hsame; [done|]. intros v E' Hlt ->. congruence.
    + apply Hsame; [done|]. intros v E' Hlt ->. congruence.
Qed.

Section SweepProperties.

Variable range : gmap string visitor → list string.
Hypothesis range_keys : ∀ m, range m ≡ₚ map_keys m.

Lemma cleanupLoop_pass_lookup (rl : RateLimiter.t) (now : Time) (key : string) :
  visitors (cleanupLoop_pass range rl now) !! key =
  match visitors rl !! key with
  | Some v => if decide (1 * Hour < Sub now (lastRefill v)) then None else Some v
  | None => None
  end.
Proof.
  unfold cleanupLoop_pass. cbn [visitors]. rewrite cleanupLoop_loop_lookup_full.
  destruct (visitors rl !! key) as [v|] eqn:Hk; [|done].
  assert (key ∈ range (visitors rl)) as Hin.
  { rewrite range_keys. unfold map_keys. apply list_elem_of_fmap.
    exists (key, v). split; [done|]. by apply elem_of_map_to_list. }
  destruct (decide (key ∈ range (visitors rl) ∧ 1 * Hour < Sub now (lastRefill v)))
    as [[_ H1]|Hn];
    destruct (decide (1 * Hour < Sub now (lastRefill v))) as [H2|H2]; try done.
  exfalso. by apply Hn.
Qed.

(** X14: a sweep of [cleanupLoop] drops exactly the visitors whose last
    refill lies more than an hour before the sweep, whatever the iteration
    order, and leaves the others as they are. *)
Theorem cleanupLoop_pass_exact (rl : RateLimiter.t) (now : Time) :
  visitors (cleanupLoop_pass range rl now) =
  filter (λ kv, ¬ 1 * Hour < Sub now (lastRefill kv.2)) (visitors rl).
Proof.
  apply map_eq. intros key. rewrite cleanupLoop_pass_lookup, map_lookup_filter.
  destruct (visitors rl !! key) as [v|]; simpl; [|done].
  case_decide.
  - rewrite option_guard_False; [done|]. simpl. tauto.
  - rewrite option_guard_True; done.
Qed.

(** X15: under a policy whose window, [maxTokens] refill intervals, is at
    most an hour, a sweep is invisible to the callers of [Allow]: an
    identity the sweep dropped would have been refilled to [maxTokens] by
    its next call anyway, so the calls made after the sweep get the answers
    they would have got without it. *)
Theorem Allow_seq_after_sweep (rl : RateLimiter.t) (tick now : Time) (key : string)
    (maxTokens : Z) (refillRate : Duration) (times : list Time) :
  (∀ v, visitors rl !! key = Some v → 0 ≤ tokens v ≤ 2 ^ 62 ∧ 0 ≤ lastRefill v) →
  1 ≤ maxTokens ≤ 2 ^ 62 →
  0 < refillRate → maxTokens * refillRate ≤ 1 * Hour →
  tick ≤ now < 2 ^ 62 →
  Allow_seq (cleanupLoop_pass range rl tick) key maxTokens refillRate (now :: times) =
  Allow_seq rl key maxTokens refillRate (now :: times).
Proof.
  intros Hinv HM Hr Hwin Hnow.
  pose proof (cleanupLoop_pass_lookup rl tick key) as Hl.
  destruct (visitors rl !! key) as [v|] eqn:Hv; [|by apply Allow_seq_ext; rewrite Hl].
  destruct (decide (1 * Hour < Sub tick (lastRefill v))) as [Hold|Hyoung];
    [|by apply Allow_seq_ext; rewrite Hl].
  destruct (Hinv v eq_refl) as [Htok Hlr].
  change (2 ^ 62) with 4611686018427387904 in *.
  unfold Time, Duration in *.
  assert (1 * Hour < tick - lastRefill v) as Hidle.
  { apply Sub_lower_bound; [|done]. unfold Hour, Minute, Second. lia. }
  assert (maxTokens ≤ (now - lastRefill v) `div` refillRate) as Hfull.
  { apply Z.div_le_lower_bound; [lia|]. nia. }
  cbn [Allow_seq]. rewrite (Allow_new _ _ _ _ _ Hl).
  rewrite (Allow_after_interval rl now key maxTokens refillRate v Hv);
    [|change (2 ^ 62) with 4611686018427387904; unfold Time, Duration in *;
      try lia..].
  - f_equal. apply Allow_seq_ext. rewrite !store_lookup_eq. do 2 f_equal.
    unfold int_sub. rewrite wrap64_id
      by (unfold min_int, max_int; change (2 ^ 63) with 9223372036854775808; lia).
    lia.
  - nia.
Qed.

End SweepProperties.

(** X16: the [RateLimit] wrapper divides the window by [maxRequests]: with
    [maxRequests = 0] every request panics, and with a window of fewer
    nanoseconds than [maxRequests] the refill interval is zero, so every
    request of an identity already seen panics in [Allow]; the limiter is
    left as it was. *)
Theorem RateLimit_division_panics (limiter : RateLimiter.t) (maxRequests : Z)
    (window : Duration) (now : Time) (key : string) :
  maxRequests = 0 ∨
  (Z.abs window < Z.abs maxRequests ∧ is_Some (visitors limiter !! key)) →
  RateLimit limiter maxRequests window now key = Panicked limiter.
Proof.
  unfold RateLimit, int_div. intros [->|[Hw [v Hv]]]; [done|].
  rewrite decide_False by lia.
  assert (window ÷ maxRequests = 0) as -> by (apply Z.quot_small_iff; lia).
  unfold Allow. rewrite Hv. unfold tokensToAdd, int_div.
  by rewrite decide_True.
Qed.

(** ** The read methods, all six *)

(** X17: every read method caches a successful answer: the read that
    misses logs one query and returns the answer, and a later read of the
    same query made before the entry expires returns the same value and
    logs nothing, whatever has been written to the database since. *)
Theorem read_cached_until_expiry
    (q : QueryCall) (s : CachedPostQueryService.t) (t1 t2 : Time) (v : any) :
  (Get (cache s) t1 (cacheKey q)).2 = false →
  answer q (PostQueryService.db (queryService s)) = (v, None) →
  ∃ s1,
    read q s t1 t2 = Returned (v, None) s1 ∧
    PostQueryService.calls (queryService s1)
      = PostQueryService.calls (queryService s) ++ [q] ∧
    ∀ (d : Database) (t3 t4 : Time),
      t3 ≤ Add t2 (ttl (cache s)) →
      let s2 := with_queryService s1 (PostQueryService.with_db (queryService s1) d) in
      read q s2 t3 t4 = Returned (v, None) s2.
Proof.
  intros Hmiss Hdb.
  pose proof (answer_asserted q (PostQueryService.db (queryService s))) as Ha.
  rewrite Hdb in Ha. simpl in Ha.
  rewrite read_unfold. unfold scheme, getOrCompute at 1.
  rewrite (Get_miss _ _ _ Hmiss), Hdb.
  eexists. split_and!; [done|done|].
  intros d t3 t4 Hle. rewrite read_unfold. unfold scheme, getOrCompute.
  cbn [cache with_queryService]. rewrite Get_Set_eq by done. by rewrite Ha.
Qed.

(** X18: no read method caches a failure: the error comes back as it is,
    beside a nil value, the cache is unchanged, and the next read of the
    same query asks the database again. *)
Theorem read_error_not_cached
    (q : QueryCall) (s : CachedPostQueryService.t) (t1 t2 t3 t4 : Time)
    (v : any) (e : string) :
  (Get (cache s) t1 (cacheKey q)).2 = false →
  answer q (PostQueryService.db (queryService s)) = (v, Some e) →
  t1 ≤ t3 →
  ∃ s1,
    read q s t1 t2 = Returned (zero q, Some e) s1 ∧
    cache s1 = cache s ∧
    PostQueryService.calls (queryService (state_of (read q s1 t3 t4)))
      = PostQueryService.calls (queryService s) ++ [q; q].
Proof.
  intros Hmiss Hdb Hle.
  rewrite read_unfold. unfold scheme, getOrCompute at 1.
  rewrite (Get_miss _ _ _ Hmiss), Hdb.
  eexists. split_and!; [done|done|].
  rewrite read_unfold. unfold scheme, getOrCompute.
  cbn [cache with_queryService].
  rewrite (Get_miss _ _ _ (Get_miss_later _ _ _ _ Hle Hmiss)).
  cbn [queryService with_queryService PostQueryService.db PostQueryService.call].
  rewrite Hdb. simpl. by rewrite <- app_assoc.
Qed.

(** X19: a read touches no entry but its own: whatever it does, [Get]
    under the key of any other query returns what it returned before. *)
Theorem read_keeps_other_entries
    (q q' : QueryCall) (s : CachedPostQueryService.t) (t_get t_set now : Time) :
  q ≠ q' →
  Get (cache (state_of (read q s t_get t_set))) now (cacheKey q') =
  Get (cache s) now (cacheKey q').
Proof.
  intros Hne. rewrite read_unfold. unfold scheme, getOrCompute.
  destruct (Get (cache s) t_get (cacheKey q)) as [cached [|]].
  - by destruct (assertion q cached).
  - destruct (answer q (PostQueryService.db (queryService s))) as [v [e|]]; [done|].
    simpl. apply Get_Set_ne. intros Hk. by apply Hne, cacheKey_inj.
Qed.

Section InvalidateUserCachePanics.

Variable range : gmap string cacheItem → list string.
Hypothesis range_keys : ∀ m, range m ≡ₚ map_keys m.

(** X20: while the categories are cached, [InvalidateUserCache] panics for
    every user id: "categories_all" is shorter than
    "posts_created_user_" with an id, and the slice in [Invalidate] has no
    bounds check. *)
Theorem InvalidateUserCache_panics_with_categories
    (s : CachedPostQueryService.t) (userID : Z) :
  is_Some (items (cache s) !! "categories_all") →
  returns (InvalidateUserCache range s userID) = false.
Proof.
  intros Hcat. unfold InvalidateUserCache, lift, and_then.
  destruct (Invalidate range (cache s) ("user_" +:+ Sprintf_d userID))
    as [[] c1|c1] eqn:E1; [|done].
  assert (is_Some (items c1 !! "categories_all")) as Hcat1.
  { rewrite (Invalidate_lookup range range_keys _ _ _ _ E1). done. }
  destruct (Invalidate range c1 ("posts_created_user_" +:+ Sprintf_d userID))
    as [[] c2|c2] eqn:E2; [|done].
  exfalso.
  assert (returns (Invalidate range c1 ("posts_created_user_" +:+ Sprintf_d userID))
          = true) as Hr by (by rewrite E2).
  pose proof (proj1 (Invalidate_returns_iff range range_keys c1 _) Hr _ Hcat1) as Hlen.
  rewrite len_append in Hlen. simpl in Hlen. lia.
Qed.

End InvalidateUserCachePanics.

(** * The further properties at concrete inputs *)

Import MoreExamples.

(** A bound on the keys of a concrete map, decided by running through it. *)
Lemma keys_at_least {V} (m : gmap string V) (n : nat) :
  bool_decide (map_Forall (λ key _, (n ≤ len key)%nat) m) = true →
  ∀ key, is_Some (m !! key) → (n ≤ len key)%nat.
Proof.
  intros H%bool_decide_eq_true key [v Hv]. by apply (H key v).
Qed.

Lemma Invalidate_exact_witness :
  ∃ c', Invalidate canonical_range (cache user555) "posts_liked_user_5"
          = Returned tt c' ∧
        ttl c' = ttl (cache user555) ∧
        ∀ now key, Get c' now key =
                   if HasPrefix key "posts_liked_user_5" then (nil_any, false)
                   else Get (cache user555) now key.
Proof.
  apply (Invalidate_exact canonical_range (λ m, canonical_range_keys m)
           (cache user555) "posts_liked_user_5").
  apply keys_at_least. vm_compute. reflexivity.
Defined.

Lemma Invalidate_idempotent_witness :
  Invalidate canonical_range
    (state_of (Invalidate canonical_range (cache user555) "posts_liked_user_5"))
    "posts_liked_user_5"
  = Returned tt
      (state_of (Invalidate canonical_range (cache user555) "posts_liked_user_5")).
Proof.
  apply (Invalidate_idempotent canonical_range (λ m, canonical_range_keys m)
           (cache user555)).
  vm_compute. reflexivity.
Defined.

Lemma cleanup_pass_exact_witness :
  cleanup_pass canonical_range (cache user555) (6 * Minute) =
  with_items (cache user555)
    (filter (λ kv, ¬ expiresAt kv.2 < 6 * Minute) (items (cache user555))).
Proof.
  exact (cleanup_pass_exact canonical_range (λ m, canonical_range_keys m)
           (cache user555) (6 * Minute)).
Defined.

(** "post_1_user_23" and "post_12_user_3". *)
Lemma cacheKey_distinct_witness :
  cacheKey (Q_GetPostByID 1 23) ≠ cacheKey (Q_GetPostByID 12 3).
Proof.
  apply (cacheKey_distinct (Q_GetPostByID 1 23) (Q_GetPostByID 12 3)).
  intros H. discriminate H.
Defined.

Lemma InvalidatePostCache_on_reachable_witness :
  let s := run canonical_range (NewCachedPostQueryService db_up (5 * Minute)) session in
  ∃ s', InvalidatePostCache canonical_range s = Returned tt s' ∧
        queryService s' = queryService s ∧
        (∀ q now, q ≠ Q_GetAllCategories →
                  Get (cache s') now (cacheKey q) = (nil_any, false)) ∧
        (∀ now, Get (cache s') now (cacheKey Q_GetAllCategories) =
                Get (cache s) now (cacheKey Q_GetAllCategories)).
Proof.
  exact (InvalidatePostCache_on_reachable canonical_range
           (λ m, canonical_range_keys m) db_up (5 * Minute) session).
Defined.

Lemma read_after_InvalidatePostCache_witness :
  let s := run canonical_range (NewCachedPostQueryService db_up (5 * Minute)) session in
  let s' := state_of (InvalidatePostCache canonical_range s) in
  ∃ s'',
    read (Q_GetAllPosts 7) s' (7 * Minute) (7 * Minute) =
      Returned (PostListItems [], Some "failed to query posts") s'' ∧
    PostQueryService.calls (queryService s'') =
      PostQueryService.calls (queryService s') ++ [Q_GetAllPosts 7].
Proof.
  intros s s'.
  destruct (read_after_InvalidatePostCache canonical_range
              (λ m, canonical_range_keys m) db_up (5 * Minute) session s'
              (Q_GetAllPosts 7) (7 * Minute) (7 * Minute))
    as (s'' & E & Hc).
  - vm_compute. reflexivity.
  - discriminate.
  - exists s''. split; [|exact Hc].
    etrans; [exact E|]. by f_equal.
Defined.

Lemma Allow_independent_of_other_keys_witness :
  visitors (state_of (Allow spent (30 * Second) "198.51.100.9" 1 (1 * Minute)))
    !! client = visitors spent !! client ∧
  Allow_seq (state_of (Allow spent (30 * Second) "198.51.100.9" 1 (1 * Minute)))
    client 1 (1 * Minute) [40 * Second; 70 * Second] =
  Allow_seq spent client 1 (1 * Minute) [40 * Second; 70 * Second].
Proof.
  apply (Allow_independent_of_other_keys spent (30 * Second) "198.51.100.9" client
           1 1 (1 * Minute) (1 * Minute) [40 * Second; 70 * Second]).
  intros H. discriminate H.
Defined.

(** Three tokens, one back every twenty seconds: four calls within twenty
    seconds. *)
Lemma Allow_burst_witness :
  Allow_seq NewRateLimiter client 3 (20 * Second)
    [0; 1 * Second; 2 * Second; 19 * Second] =
  [Some true; Some true; Some true; Some false].
Proof.
  apply (Allow_burst NewRateLimiter client 3 (20 * Second) 0
           [1 * Second; 2 * Second; 19 * Second]).
  - vm_compute. reflexivity.
  - vm_compute. split; discriminate.
  - vm_compute. reflexivity.
  - repeat constructor; vm_compute; try reflexivity; discriminate.
Defined.

Lemma Allow_drained_admitted_iff_witness :
  Allow spent (59 * Second) client 1 (1 * Minute) = Returned false spent ∧
  Allow spent (60 * Second) client 1 (1 * Minute) =
  Returned true (store spent client {| tokens := 0; lastRefill := 60 * Second |}).
Proof.
  assert (visitors spent !! client = Some {| tokens := 0; lastRefill := 0 |}) as Hv
    by (vm_compute; reflexivity).
  split.
  - apply (Allow_drained_admitted_iff spent (59 * Second) client 1 (1 * Minute) _ Hv).
    + reflexivity.
    + vm_compute. split; discriminate.
    + vm_compute. split; discriminate.
    + vm_compute. reflexivity.
    + vm_compute. reflexivity.
  - apply (Allow_drained_admitted_iff spent (60 * Second) client 1 (1 * Minute) _ Hv).
    + reflexivity.
    + vm_compute. split; discriminate.
    + vm_compute. split; discriminate.
    + vm_compute. reflexivity.
    + vm_compute. reflexivity.
Defined.

Lemma cleanupLoop_pass_exact_witness :
  visitors (cleanupLoop_pass canonical_range two_clients (2 * Hour)) =
  filter (λ kv, ¬ 1 * Hour < Sub (2 * Hour) (lastRefill kv.2)) (visitors two_clients).
Proof.
  exact (cleanupLoop_pass_exact canonical_range (λ m, canonical_range_keys m)
           two_clients (2 * Hour)).
Defined.

(** A client swept after two idle hours gets the answers it would have
    got unswept. *)
Lemma Allow_seq_after_sweep_witness :
  Allow_seq (cleanupLoop_pass canonical_range two_clients (2 * Hour)) client
    1 (1 * Minute) [2 * Hour; 2 * Hour + 1; 2 * Hour + 1 * Minute] =
  Allow_seq two_clients client 1 (1 * Minute)
    [2 * Hour; 2 * Hour + 1; 2 * Hour + 1 * Minute].
Proof.
  apply (Allow_seq_after_sweep canonical_range (λ m, canonical_range_keys m)
           two_clients (2 * Hour) (2 * Hour) client 1 (1 * Minute)
           [2 * Hour + 1; 2 * Hour + 1 * Minute]).
  - intros v Hv. vm_compute in Hv. injection Hv as <-. vm_compute.
    repeat split; discriminate.
  - vm_compute. split; discriminate.
  - vm_compute. reflexivity.
  - vm_compute. discriminate.
  - vm_compute. split; [discriminate|reflexivity].
Defined.

(** A limit of 100 requests per 50 nanoseconds. *)
Lemma RateLimit_division_panics_witness :
  RateLimit spent 100 (50 * Nanosecond) (1 * Second) client = Panicked spent.
Proof.
  apply (RateLimit_division_panics spent 100 (50 * Nanosecond) (1 * Second) client).
  right. split; [vm_compute; reflexivity|vm_compute; eauto].
Defined.

Lemma read_cached_until_expiry_witness :
  ∃ s1,
    read (Q_GetPostsByCategory 2 7) cold 0 0 = Returned (PostListItems [example_post], None) s1 ∧
    PostQueryService.calls (queryService s1)
      = PostQueryService.calls (queryService cold) ++ [Q_GetPostsByCategory 2 7] ∧
    ∀ (d : Database) (t3 t4 : Time),
      t3 ≤ Add 0 (ttl (cache cold)) →
      let s2 := with_queryService s1 (PostQueryService.with_db (queryService s1) d) in
      read (Q_GetPostsByCategory 2 7) s2 t3 t4
      = Returned (PostListItems [example_post], None) s2.
Proof.
  apply (read_cached_until_expiry (Q_GetPostsByCategory 2 7) cold 0 0
           (PostListItems [example_post])).
  - vm_compute. reflexivity.
  - vm_compute. reflexivity.
Defined.

Lemma read_error_not_cached_witness :
  ∃ s1,
    read (Q_GetPostByID 1 7) cold_down 0 0
      = Returned (PostDetailPtr None, Some "failed to query post") s1 ∧
    cache s1 = cache cold_down ∧
    PostQueryService.calls (queryService (state_of (read (Q_GetPostByID 1 7) s1 1 1)))
      = PostQueryService.calls (queryService cold_down)
          ++ [Q_GetPostByID 1 7; Q_GetPostByID 1 7].
Proof.
  apply (read_error_not_cached (Q_GetPostByID 1 7) cold_down 0 0 1 1
           (PostDetailPtr None) "failed to query post").
  - vm_compute. reflexivity.
  - vm_compute. reflexivity.
  - vm_compute. discriminate.
Defined.

Lemma read_keeps_other_entries_witness :
  Get (cache (state_of (read (Q_GetUserLikedPosts 7) warm 1 1))) 2
    (cacheKey (Q_GetAllPosts 7)) =
  Get (cache warm) 2 (cacheKey (Q_GetAllPosts 7)).
Proof.
  apply (read_keeps_other_entries (Q_GetUserLikedPosts 7) (Q_GetAllPosts 7) warm 1 1 2).
  intros H. discriminate H.
Defined.

Lemma InvalidateUserCache_panics_with_categories_witness :
  returns (InvalidateUserCache canonical_range categories_and_user5 5) = false.
Proof.
  apply (InvalidateUserCache_panics_with_categories canonical_range
           (λ m, canonical_range_keys m) categories_and_user5 5).
  vm_compute. eauto.
Defined.

(** * The token count of one identity *)


Section TokenBounds.

Variable range : gmap string visitor → list string.




End TokenBounds.


(** * InvalidateUserCache and the entries of other users *)

Section InvalidateUserCacheKeeps.

Variable range : gmap string cacheItem → list string.
Hypothesis range_keys : ∀ m, range m ≡ₚ map_keys m.

Lemma Invalidate_frame (c : QueryCache) (keyPrefix key : string) :
  HasPrefix key keyPrefix = false →
  items (state_of (Invalidate range c keyPrefix)) !! key = items c !! key.
Proof.
  intros Hp. rewrite Invalidate_state. simpl. by apply Invalidate_loop_frame.
Qed.

(** C10: [InvalidateUserCache u] does not remove the liked-posts entry of a
    user [w] whose decimal id is at most one digit longer than that of
    [u]: the key of the entry is shorter than "posts_created_user_" with
    the id of [u], so the second [Invalidate] panics on it, the third never
    runs, and the entry is still in the cache. *)
Theorem InvalidateUserCache_keeps_short_liked_entry
    (s : CachedPostQueryService.t) (u w : Z) (item : cacheItem) :
  items (cache s) !! ("posts_liked_user_" +:+ Sprintf_d w) = Some item →
  (len (Sprintf_d w) < len (Sprintf_d u) + 2)%nat →
  returns (InvalidateUserCache range s u) = false ∧
  items (cache (state_of (InvalidateUserCache range s u)))
    !! ("posts_liked_user_" +:+ Sprintf_d w) = Some item.
Proof.
  intros Hk Hlen. unfold InvalidateUserCache.
  pose proof (Invalidate_frame (cache s) ("user_" +:+ Sprintf_d u)
                ("posts_liked_user_" +:+ Sprintf_d w) eq_refl) as H1.
  rewrite Hk in H1.
  destruct (Invalidate range (cache s) ("user_" +:+ Sprintf_d u))
    as [[] c1|c1] eqn:E1; [|done].
  simpl in H1. cbn [and_then].
  pose proof (Invalidate_frame c1 ("posts_created_user_" +:+ Sprintf_d u)
                ("posts_liked_user_" +:+ Sprintf_d w) eq_refl) as H2.
  rewrite H1 in H2.
  destruct (Invalidate range c1 ("posts_created_user_" +:+ Sprintf_d u))
    as [[] c2|c2] eqn:E2; [|done].
  exfalso.
  assert (returns (Invalidate range c1 ("posts_created_user_" +:+ Sprintf_d u))
          = true) as Hr by (by rewrite E2).
  pose proof (proj1 (Invalidate_returns_iff range range_keys c1 _) Hr
                ("posts_liked_user_" +:+ Sprintf_d w)) as Hle.
  rewrite H1 in Hle. specialize (Hle ltac:(eauto)).
  rewrite !len_append in Hle. simpl in Hle. lia.
Qed.

End InvalidateUserCacheKeeps.

(** Users 5 and 55. *)
Lemma InvalidateUserCache_keeps_short_liked_entry_witness :
  5 ≠ 55 ∧
  HasPrefix (Sprintf_d 55) (Sprintf_d 5) = true ∧
  Get (cache liked55) 0 "posts_liked_user_55" = (PostListItems [example_post], true) ∧
  returns (InvalidateUserCache canonical_range liked55 5) = false ∧
  items (cache (state_of (InvalidateUserCache canonical_range liked55 5)))
    !! ("posts_liked_user_" +:+ Sprintf_d 55)
  = Some {| data := PostListItems [example_post]; expiresAt := 5 * Minute |}.
Proof.
  split_and!; [done|vm_compute; reflexivity|vm_compute; reflexivity| |];
    apply (InvalidateUserCache_keeps_short_liked_entry canonical_range
             (λ m, canonical_range_keys m) liked55 5 55
             {| data := PostListItems [example_post]; expiresAt := 5 * Minute |});
    vm_compute; first [reflexivity|lia].
Defined.
